(** * gdutils.dataqa: data quality assurance functions

    A shallow embedding of [src/gdutils/dataqa.py] and the properties
    of its six functions:

    - [compare_column_names], [sum_column_values],
      [compare_column_values], [compare_column_sums],
      [has_missing_geometries], [has_empty_geometries],
    - and the private helper [__can_compare] (here [can_compare]).

    Python exceptions are values of an error monad; the arguments that
    the source accepts as "list or set, maybe [None]" are values of the
    type [pyobj]; the values of a table are numpy scalars, [int64] with
    its wrap-around or [float64]; thresholds are [None] or Python
    numbers (an [int] or a binary64 [float]). Binary64 is the Standard
    Library's [SpecFloat]. *)

From Stdlib Require Import ZArith List Bool Lia QArith Qpower.
From Stdlib Require Import Floats.SpecFloat.
From stdpp Require Import base gmap sets list strings pretty.

Local Open Scope Z_scope.

(** ** Exceptions *)

Module Py.

Inductive exn : Type :=
  | KeyError
  | TypeError
  | ValueError
  | IndexError
  | OverflowError
  | RecursionError.

Inductive res (A : Type) : Type :=
  | Ok (a : A)
  | Raise (e : exn).

Arguments Ok {A} a.
Arguments Raise {A} e.

#[global] Instance res_ret : MRet res := fun A a => Ok a.
#[global] Instance res_bind : MBind res := fun A B f m =>
  match m with
  | Ok a => f a
  | Raise e => Raise e
  end.

Definition is_ok {A} (m : res A) : bool :=
  match m with Ok _ => true | Raise _ => false end.

(** ** Hashable scalars: row labels

    A pandas index holds arbitrary hashable labels; integers (the
    default [RangeIndex]) and strings are the ones modelled. *)

Inductive key : Type :=
  | KInt (z : Z)
  | KStr (s : string).

#[global] Instance key_eq_dec : EqDecision key.
Proof. solve_decision. Defined.

Definition key_to_sum (k : key) : Z + string :=
  match k with KInt z => inl z | KStr s => inr s end.

Definition key_of_sum (x : Z + string) : key :=
  match x with inl z => KInt z | inr s => KStr s end.

#[global] Instance key_countable : Countable key.
Proof.
  apply (inj_countable' key_to_sum key_of_sum).
  intros [z|s]; reflexivity.
Defined.

(** [str(x)], as used by [str.format] on a [{}] field. *)
Class Str (A : Type) := str : A -> string.

#[global] Instance str_string : Str string := fun s => s.
#[global] Instance str_Z : Str Z := fun z => pretty z.
#[global] Instance str_key : Str key := fun k =>
  match k with KInt z => str z | KStr s => s end.

(** ['{} [vs] {}'.format(a, b)] *)
Definition format_vs {A B} `{Str A, Str B} (a : A) (b : B) : string :=
  str a +:+ " [vs] " +:+ str b.

(** ** Arguments that are a list, a set, or [None] *)

Inductive pyobj (A : Type) `{Countable A} : Type :=
  | PNone
  | PList (l : list A)
  | PSet (s : gset A).

Arguments PNone {A _ _}.
Arguments PList {A _ _} l.
Arguments PSet {A _ _} s.

Inductive pytype : Type := NoneType | ListType | SetType.

#[global] Instance pytype_eq_dec : EqDecision pytype.
Proof. solve_decision. Defined.

Section Builtins.
Context {A : Type} `{Countable A}.

(** [type(x)] *)
Definition type_of (x : pyobj A) : pytype :=
  match x with
  | PNone => NoneType
  | PList _ => ListType
  | PSet _ => SetType
  end.

(** [x is not None] *)
Definition is_not_None (x : pyobj A) : bool :=
  match x with PNone => false | _ => true end.

(** [isinstance(x, type(y))]: none of the three types is a subclass
    of another. *)
Definition isinstance_type (x y : pyobj A) : bool :=
  bool_decide (type_of x = type_of y).

(** [isinstance(x, Hashable)]: [None] is hashable, lists and sets are
    not. *)
Definition is_Hashable (x : pyobj A) : bool :=
  match x with PNone => true | _ => false end.

(** [len(x)] *)
Definition len (x : pyobj A) : res nat :=
  match x with
  | PNone => Raise TypeError
  | PList l => Ok (length l)
  | PSet s => Ok (size s)
  end.

(** [x[i]] for [i] a non-negative index. *)
Definition getitem (x : pyobj A) (i : nat) : res A :=
  match x with
  | PNone => Raise TypeError
  | PSet _ => Raise TypeError
  | PList l =>
      match l !! i with
      | Some a => Ok a
      | None => Raise IndexError
      end
  end.

(** [list(x)]; a set is iterated in some fixed order. *)
Definition to_list (x : pyobj A) : res (list A) :=
  match x with
  | PNone => Raise TypeError
  | PList l => Ok l
  | PSet s => Ok (elements s)
  end.

(** [set(x)] *)
Definition to_set (x : pyobj A) : res (gset A) :=
  match x with
  | PNone => Raise TypeError
  | PList l => Ok (list_to_set l)
  | PSet s => Ok s
  end.
End Builtins.

End Py.

Import Py.

(** ** Numbers in tables

    The values of a numerical column are numpy scalars. The two default
    numerical types of pandas are modelled: [int64], a 64-bit integer
    in two's complement whose arithmetic wraps around, and [float64],
    an IEEE 754 binary64 value. *)

Definition prec : Z := 53.
Definition emax : Z := 1024.

(** The value of a 64-bit two's complement integer that holds the low
    64 bits of [z]. *)
Definition wrap64 (z : Z) : Z := (z + 2 ^ 63) mod 2 ^ 64 - 2 ^ 63.

Inductive scalar : Type :=
  | I64 (z : Z)
  | F64 (f : spec_float).

(** The conversion of an [int64] to [float64], rounding to nearest
    even. *)
Definition float_of_int64 (z : Z) : spec_float :=
  binary_normalize prec emax z 0 false.

Definition to_float (x : scalar) : spec_float :=
  match x with
  | I64 z => float_of_int64 z
  | F64 f => f
  end.

(** [x - y] on numpy scalars: in [int64] when both are, else in
    [float64]. *)
Definition scalar_sub (x y : scalar) : scalar :=
  match x, y with
  | I64 a, I64 b => I64 (wrap64 (a - b))
  | _, _ => F64 (SFsub prec emax (to_float x) (to_float y))
  end.

(** A column has one type for all its values. The values of an
    [int64] column are 64-bit integers ([int64] below); the operations
    reduce what they compute to the 64 bits, so that their results are
    such integers whatever the operands. *)
Inductive column : Type :=
  | IntCol (vs : list Z)
  | FloatCol (vs : list spec_float).

(** [len(series)] *)
Definition col_length (s : column) : nat :=
  match s with
  | IntCol vs => length vs
  | FloatCol vs => length vs
  end.

(** The value at a position of a column. *)
Definition col_at (s : column) (p : nat) : option scalar :=
  match s with
  | IntCol vs => I64 <$> vs !! p
  | FloatCol vs => F64 <$> vs !! p
  end.

(** ** Tables *)

(** Modelled from the spec: the pandas [DataFrame] is not part of the
    repository. A table maps column names to sequences of values and
    has a sequence of row labels (spec, section 3). Columns are
    numerical: the docstrings make a non-numerical column "an unchecked
    runtime error", outside the functions' contract. *)
Record DataFrame : Type := {
  df_index : list key;
  df_data : list (string * column)
}.

(** [table.columns] *)
Definition df_columns (t : DataFrame) : list string :=
  map fst (df_data t).

Fixpoint assoc {V} (c : string) (d : list (string * V)) : option V :=
  match d with
  | [] => None
  | (c', v) :: d' => if decide (c = c') then Some v else assoc c d'
  end.

(** Position of a row label in the index. *)
Fixpoint index_of (r : key) (idx : list key) : option nat :=
  match idx with
  | [] => None
  | r' :: idx' =>
      if decide (r = r') then Some 0%nat else S <$> index_of r idx'
  end.

(** Invariant of the data model: labels are unique and every column has
    one value per row. *)
Record df_wf (t : DataFrame) : Prop := {
  wf_columns : NoDup (df_columns t);
  wf_index : NoDup (df_index t);
  wf_lengths : Forall (fun cv => col_length (snd cv) = length (df_index t))
                 (df_data t)
}.

(** [table[col]] *)
Definition df_getitem (t : DataFrame) (col : string) : res column :=
  match assoc col (df_data t) with
  | Some s => Ok s
  | None => Raise KeyError
  end.

(** The cell of row [r] and column [c], when there is one. *)
Definition df_cell (t : DataFrame) (r : key) (c : string) : option scalar :=
  s ← assoc c (df_data t);
  p ← index_of r (df_index t);
  col_at s p.

(** [table.at[r, c]] *)
Definition df_at (t : DataFrame) (r : key) (c : string) : res scalar :=
  match df_cell t r c with
  | Some v => Ok v
  | None => Raise KeyError
  end.

(** ** The helper [__can_compare] *)

Section CanCompare.
Context {A : Type} `{Countable A}.

Definition can_compare (xs ys : pyobj A) : res bool :=
  if is_not_None xs && is_not_None ys && isinstance_type xs ys then
    if negb (is_Hashable xs) then
      n ← len xs;
      if (0 <? n)%nat then
        m ← len ys;
        Ok (n =? m)%nat
      else Ok false
    else Ok false
  else Ok false.
End CanCompare.

(** ** [compare_column_names] *)

Definition compare_column_names (table : DataFrame) (standards : pyobj string)
  : res (gset string * gset string) :=
  s ← to_set standards;
  let intersection := s ∩ list_to_set (df_columns table) in
  let difference := list_to_set (df_columns table) ∖ intersection in
  Ok (intersection, difference).

(** ** [sum_column_values] *)

Section Sums.
(** Modelled from the spec: the sum of a [float64] column is pandas'
    and numpy's. It skips the NaN values and adds the others in an
    order that the repository does not fix, so it is left open here:
    what follows holds for every such function. *)
Variable float_sum : list spec_float -> spec_float.

(** [series.sum()]: an [int64] column is added up in [int64], from 0
    and with wrap-around. *)
Definition series_sum (s : column) : scalar :=
  match s with
  | IntCol vs => I64 (fold_left (fun acc v => wrap64 (acc + v)) vs 0)
  | FloatCol vs => F64 (float_sum vs)
  end.

(** One element of the list comprehension: [(col, table[col].sum())]. *)
Definition sum_column (table : DataFrame) (col : string)
  : res (string * scalar) :=
  s ← df_getitem table col;
  Ok (col, series_sum s).

Definition sum_column_values (table : DataFrame) (columns : pyobj string)
  : res (list (string * scalar)) :=
  cols ← to_list columns;
  mapM (sum_column table) cols.
End Sums.

(** ** [compare_column_values]

    The result is a Python [dict]: keys are unique and kept in the
    order of their first insertion. *)

Fixpoint dict_set {V} (k : string) (v : V) (d : list (string * V))
  : list (string * V) :=
  match d with
  | [] => [(k, v)]
  | (k', v') :: d' =>
      if decide (k = k') then (k, v) :: d' else (k', v') :: dict_set k v d'
  end.

Definition dict_get {V} (k : string) (d : list (string * V)) : option V :=
  assoc k d.

Definition dict_keys {V} (d : list (string * V)) : list string := map fst d.

(** [for i in l: s = body(i, s)] *)
Fixpoint for_each {S} (body : nat -> S -> res S) (l : list nat) (s : S) : res S :=
  match l with
  | [] => Ok s
  | i :: l' => s' ← body i s; for_each body l' s'
  end.

Section CompareColumnValues.
Variables table1 table2 : DataFrame.
Variables columns1 columns2 : pyobj string.

(** One element of the list comprehension, in evaluation order. *)
Definition diff_at (rows1 rows2 : pyobj key) (i j : nat)
  : res (string * scalar) :=
  r1 ← getitem rows1 j;
  r2 ← getitem rows2 j;
  let label := format_vs r1 r2 in
  c1 ← getitem columns1 i;
  v1 ← df_at table1 r1 c1;
  c2 ← getitem columns2 i;
  v2 ← df_at table2 r2 c2;
  Ok (label, scalar_sub v1 v2).

(** The body of the [for i] loop. *)
Definition compare_body (rows1 rows2 : pyobj key) (i : nat)
    (results : list (string * list (string * scalar)))
  : res (list (string * list (string * scalar))) :=
  n ← len rows1;
  diff ← mapM (diff_at rows1 rows2 i) (seq 0 n);
  c1 ← getitem columns1 i;
  c2 ← getitem columns2 i;
  Ok (dict_set (format_vs c1 c2) diff results).

(** The function calls itself once, when both row lists are [None];
    [fuel] bounds the depth of the call stack. *)
Fixpoint compare_column_values_rec (fuel : nat) (rows1 rows2 : pyobj key)
  : res (list (string * list (string * scalar))) :=
  match fuel with
  | O => Raise RecursionError
  | S fuel' =>
      ok ← can_compare columns1 columns2;
      if negb ok then Raise ValueError
      else if negb (is_not_None rows1) && negb (is_not_None rows2) then
        compare_column_values_rec fuel'
          (PList (df_index table1)) (PList (df_index table2))
      else
        bad ← (if is_not_None rows1 && is_not_None rows2
               then ok' ← can_compare rows1 rows2; Ok (negb ok')
               else Ok false);
        if bad : bool then Raise ValueError
        else
          n ← len columns1;
          for_each (compare_body rows1 rows2) (seq 0 n) []
  end.
End CompareColumnValues.

(** Python's default recursion limit. *)
Definition recursion_limit : nat := 1000.

Definition compare_column_values (table1 table2 : DataFrame)
    (columns1 columns2 : pyobj string) (rows1 rows2 : pyobj key)
  : res (list (string * list (string * scalar))) :=
  compare_column_values_rec table1 table2 columns1 columns2
    recursion_limit rows1 rows2.

(** ** [compare_column_sums] *)

Definition compare_column_sums (float_sum : list spec_float -> spec_float)
    (table1 table2 : DataFrame) (columns1 columns2 : pyobj string)
  : res (list (string * scalar)) :=
  ok ← can_compare columns1 columns2;
  if negb ok then Raise ValueError
  else
    sums1 ← sum_column_values float_sum table1 columns1;
    sums2 ← sum_column_values float_sum table2 columns2;
    Ok (zip_with
          (fun tup1 tup2 => (format_vs (fst tup1) (fst tup2),
                             scalar_sub (snd tup1) (snd tup2)))
          sums1 sums2).

(** ** Geometry checks *)

(** Modelled from the spec: the shapely geometries are not part of the
    repository. A geometry cell is absent ([None]) or a shape, which may
    be empty. *)
Inductive geometry : Type :=
  | GNone
  | GShape (empty : bool).

(** Modelled from the spec: the geopandas [GeoDataFrame] is not part of
    the repository. It is a table with a geometry column, which may be
    absent. *)
Record GeoDataFrame : Type := {
  gdf_table : DataFrame;
  gdf_geometry : option (list geometry)
}.

(** [gdf['geometry']] *)
Definition gdf_getitem_geometry (gdf : GeoDataFrame) : res (list geometry) :=
  match gdf_geometry gdf with
  | Some g => Ok g
  | None => Raise KeyError
  end.

(** [series.isna()] and [series.is_empty], elementwise. *)
Definition isna (g : geometry) : bool :=
  match g with GNone => true | GShape _ => false end.

Definition is_empty (g : geometry) : bool :=
  match g with GNone => false | GShape e => e end.

(** [list.count(True)] *)
Fixpoint count_True (l : list bool) : nat :=
  match l with
  | [] => O
  | b :: l' => if b then S (count_True l') else count_True l'
  end.

(** *** Python numbers

    A threshold is [None] or a number, an [int] or a [float]; a float
    is an IEEE 754 binary64 value. *)

Inductive number : Type :=
  | PInt (z : Z)
  | PFloat (f : spec_float).

(** [float(z)], rounding to nearest even; too large an integer raises
    [OverflowError]. *)
Definition float_of_int (z : Z) : res spec_float :=
  match binary_normalize prec emax z 0 false with
  | S754_infinity _ => Raise OverflowError
  | f => Ok f
  end.

(** [n * x] for an [int] [n]: exact with an [int], in binary64 with a
    [float]. *)
Definition int_mul (n : Z) (x : number) : res number :=
  match x with
  | PInt z => Ok (PInt (n * z))
  | PFloat f => fn ← float_of_int n; Ok (PFloat (SFmul prec emax fn f))
  end.

(** [c > x] for an [int] [c]: Python compares an [int] with a [float]
    by their exact values; every comparison with a NaN is false. *)
Definition int_gt_float (c : Z) (f : spec_float) : bool :=
  match f with
  | S754_nan => false
  | S754_infinity s => s
  | S754_zero _ => (0 <? c)%Z
  | S754_finite s m e =>
      let m' := if s then Z.neg m else Z.pos m in
      if (0 <=? e)%Z then (m' * 2 ^ e <? c)%Z else (m' <? c * 2 ^ (- e))%Z
  end.

Definition int_gt (c : Z) (x : number) : bool :=
  match x with
  | PInt z => (z <? c)%Z
  | PFloat f => int_gt_float c f
  end.

(** [n * threshold] for the declared [Optional[float]]: an [int]
    cannot be multiplied by [None]. *)
Definition mul_threshold (n : Z) (threshold : option number) : res number :=
  match threshold with
  | None => Raise TypeError
  | Some x => int_mul n x
  end.

Definition has_missing_geometries (gdf : GeoDataFrame)
    (threshold : option number) : res bool :=
  g ← gdf_getitem_geometry gdf;
  let missing := count_True (map isna g) in
  g' ← gdf_getitem_geometry gdf;
  bound ← mul_threshold (Z.of_nat (length g')) threshold;
  Ok (int_gt (Z.of_nat missing) bound).

Definition has_empty_geometries (gdf : GeoDataFrame)
    (threshold : option number) : res bool :=
  g ← gdf_getitem_geometry gdf;
  let empty := count_True (map is_empty g) in
  g' ← gdf_getitem_geometry gdf;
  bound ← mul_threshold (Z.of_nat (length g')) threshold;
  Ok (int_gt (Z.of_nat empty) bound).

(** ** Reference notions used in the statements *)

(** The elements of an argument, in the order [list(x)] yields them;
    [None] has none. *)
Definition requested {A} `{Countable A} (x : pyobj A) : list A :=
  match x with
  | PNone => []
  | PList l => l
  | PSet s => elements s
  end.

(** The number of elements of an argument. *)
Definition cardinal {A} `{Countable A} (x : pyobj A) : nat :=
  length (requested x).

(** The arithmetic sum of a sequence. *)
Definition arithmetic_sum (vs : list Z) : Z := foldr Z.add 0 vs.

(** The tables of the docstrings and of the spec's scenarios. *)
Definition doc_table : DataFrame :=
  {| df_index := [KInt 0; KInt 1];
     df_data := [("COL1", IntCol [1; 4]); ("col2", IntCol [2; 5]);
                 ("COL3", IntCol [3; 6])] |}.

Definition scenario_table1 : DataFrame :=
  {| df_index := [KInt 0; KInt 1];
     df_data := [("COL1", IntCol [1; 4]); ("COL2", IntCol [2; 5]);
                 ("COL3", IntCol [3; 6])] |}.

Definition scenario_table2 : DataFrame :=
  {| df_index := [KInt 0; KInt 1];
     df_data := [("col1", IntCol [1; 2]); ("col2", IntCol [4; 5])] |}.

(** The dictionary built by assigning the items of a list in order. *)
Definition dict_of_items {V} (items : list (string * V)) : list (string * V) :=
  fold_left (fun d kv => dict_set (fst kv) (snd kv) d) items [].

(** [l] is the list, over the positions [j] of the row lists, of the
    pair of the row label ["{rows1[j]} [vs] {rows2[j]}"] and the
    difference of the cell of column [c1], row [rows1[j]] of [t1] and
    the cell of column [c2], row [rows2[j]] of [t2]; the difference is
    that of the two scalars, [scalar_sub]. *)
Definition is_diff (t1 t2 : DataFrame) (c1 c2 : string) (rows1 rows2 : list key)
    (l : list (string * scalar)) : Prop :=
  length l = length rows1 /\
  forall j r1 r2, rows1 !! j = Some r1 -> rows2 !! j = Some r2 ->
    exists v1 v2,
      df_cell t1 r1 c1 = Some v1 /\ df_cell t2 r2 c2 = Some v2 /\
      l !! j = Some (format_vs r1 r2, scalar_sub v1 v2).

(** Tables whose column names contain the separator of the labels. *)
Definition collision_table1 : DataFrame :=
  {| df_index := [KInt 0];
     df_data := [("a", IntCol [1]); ("a [vs] b", IntCol [5])] |}.

Definition collision_table2 : DataFrame :=
  {| df_index := [KInt 0];
     df_data := [("b [vs] c", IntCol [0]); ("c", IntCol [0])] |}.

(** The label of position [i] of two column lists. *)
Definition label_at (columns1 columns2 : list string) (i : nat) : option string :=
  a ← columns1 !! i; b ← columns2 !! i; Some (format_vs a b).

(** The difference list of a pair of columns, cell by cell; an absent
    cell counts as 0 here and raises [KeyError] in the code. *)
Definition column_diff (t1 t2 : DataFrame) (rows1 rows2 : list key)
    (c1 c2 : string) : list (string * scalar) :=
  zip_with
    (fun r1 r2 => (format_vs r1 r2,
                   scalar_sub (default (I64 0) (df_cell t1 r1 c1))
                              (default (I64 0) (df_cell t2 r2 c2))))
    rows1 rows2.

(** The assignments of the loop, in order. *)
Definition diff_items (t1 t2 : DataFrame) (columns1 columns2 : list string)
    (rows1 rows2 : list key) : list (string * list (string * scalar)) :=
  zip_with (fun c1 c2 => (format_vs c1 c2, column_diff t1 t2 rows1 rows2 c1 c2))
    columns1 columns2.

(** The row labels compared: the argument, or the index of the table
    when the argument is [None]. *)
Definition effective_rows (t : DataFrame) (rows : pyobj key) : list key :=
  match rows with
  | PNone => df_index t
  | _ => requested rows
  end.

(** Both row arguments are omitted, or both are lists. *)
Definition rows_aligned (rows1 rows2 : pyobj key) : Prop :=
  (rows1 = PNone /\ rows2 = PNone) \/
  (exists l1 l2, rows1 = PList l1 /\ rows2 = PList l2).

(** The arguments of [compare_column_values] are valid: the tables
    satisfy the invariant of the data model, the column lists are
    non-empty, of the same length and name columns of their tables, and
    so do the row lists for the row labels. *)
Record valid_comparison (t1 t2 : DataFrame) (columns1 columns2 : list string)
    (rows1 rows2 : list key) : Prop := {
  vc_wf1 : df_wf t1;
  vc_wf2 : df_wf t2;
  vc_columns : columns1 <> [] /\ length columns1 = length columns2;
  vc_columns1 : forall c, c ∈ columns1 -> c ∈ df_columns t1;
  vc_columns2 : forall c, c ∈ columns2 -> c ∈ df_columns t2;
  vc_rows : rows1 <> [] /\ length rows1 = length rows2;
  vc_rows1 : forall r, r ∈ rows1 -> r ∈ df_index t1;
  vc_rows2 : forall r, r ∈ rows2 -> r ∈ df_index t2
}.

(** Under the label of every position [i], [d] holds the difference
    list of position [i]. *)
Definition holds_every_diff (t1 t2 : DataFrame) (columns1 columns2 : list string)
    (rows1 rows2 : list key) (d : list (string * list (string * scalar))) : Prop :=
  forall i a b, columns1 !! i = Some a -> columns2 !! i = Some b ->
    exists l, dict_get (format_vs a b) d = Some l /\
              is_diff t1 t2 a b rows1 rows2 l.

(** Under the label of every position [i], [d] holds the difference
    list of the last position that has the same label. *)
Definition holds_last_diff (t1 t2 : DataFrame) (columns1 columns2 : list string)
    (rows1 rows2 : list key) (d : list (string * list (string * scalar))) : Prop :=
  forall i a b, columns1 !! i = Some a -> columns2 !! i = Some b ->
    exists k a' b' l,
      (i <= k)%nat /\ columns1 !! k = Some a' /\ columns2 !! k = Some b' /\
      format_vs a' b' = format_vs a b /\
      (forall k', (k < k')%nat ->
         label_at columns1 columns2 k' <> Some (format_vs a b)) /\
      dict_get (format_vs a b) d = Some l /\
      is_diff t1 t2 a' b' rows1 rows2 l.

(** The number of rows whose geometry satisfies [p]. *)
Definition count_rows (p : geometry -> bool) (g : list geometry) : nat :=
  length (filter (fun x => p x = true) g).

(** The float [1.0]. *)
Definition float_one : spec_float := S754_finite false 4503599627370496 (-52).

(** The floats nearest to 0.7 and to 0.75. *)
Definition float_0_7 : spec_float := S754_finite false 6305039478318694 (-53).
Definition float_0_75 : spec_float := S754_finite false 6755399441055744 (-53).

(** The rational value of a finite float and of a number. *)
Definition signed (s : bool) (m : positive) : Z :=
  if s then Z.neg m else Z.pos m.

Definition float_to_Q (f : spec_float) : option Q :=
  match f with
  | S754_zero _ => Some 0%Q
  | S754_finite s m e => Some (inject_Z (signed s m) * 2 ^ e)%Q
  | _ => None
  end.

Definition number_to_Q (x : number) : option Q :=
  match x with
  | PInt z => Some (inject_Z z)
  | PFloat f => float_to_Q f
  end.

(** What a check [run] of the rows that satisfy [p] does on a geometry
    column [g], for [n] rows of which [c] satisfy [p]: it compares [c]
    with the product [n * threshold] as Python computes it, exactly for
    an [int] and rounded to binary64 for a [float]; at threshold 0 it
    is true exactly when some row satisfies [p]; at threshold 1 it is
    false. *)
Definition threshold_check (run : number -> res bool) (p : geometry -> bool)
    (g : list geometry) : Prop :=
  let n := Z.of_nat (length g) in
  let c := Z.of_nat (count_rows p g) in
  (forall t, exists bound b,
     int_mul n t = Ok bound /\ run t = Ok b /\
     forall q, number_to_Q bound = Some q ->
       (b = true <-> (q < inject_Z c)%Q)) /\
  (forall z, exists b, run (PInt z) = Ok b /\ (b = true <-> z * n < c)) /\
  (forall t, t = PInt 0 \/ (exists s, t = PFloat (S754_zero s)) ->
     exists b, run t = Ok b /\ (b = true <-> exists x, x ∈ g /\ p x = true)) /\
  (forall t, t = PInt 1 \/ t = PFloat float_one -> run t = Ok false).

(** The geo-table of the docstrings, one with 7 missing geometries in
    10 rows, and one with [2^53 + 1] rows, all missing. *)
Definition doc_gdf : GeoDataFrame :=
  {| gdf_table := {| df_index := [KInt 0; KInt 1; KInt 2]; df_data := [] |};
     gdf_geometry := Some [GNone; GShape false; GShape false] |}.

Definition seven_of_ten_gdf : GeoDataFrame :=
  {| gdf_table := {| df_index := []; df_data := [] |};
     gdf_geometry := Some (repeat GNone 7 ++ repeat (GShape true) 3) |}.

Definition huge_gdf : GeoDataFrame :=
  {| gdf_table := {| df_index := []; df_data := [] |};
     gdf_geometry := Some (repeat GNone (Z.to_nat (2 ^ 53 + 1))) |}.

Definition empty_gdf : GeoDataFrame :=
  {| gdf_table := {| df_index := []; df_data := [] |};
     gdf_geometry := Some [] |}.

(** Validity of concrete arguments, by evaluation. *)
Ltac by_decide := apply (bool_decide_unpack _); vm_compute; exact I.

Ltac concrete_valid :=
  split;
  [ split; [by_decide | by_decide | repeat constructor]
  | split; [by_decide | by_decide | repeat constructor]
  | split; [discriminate | reflexivity]
  | apply Forall_forall; by_decide
  | apply Forall_forall; by_decide
  | split; [discriminate | reflexivity]
  | apply Forall_forall; by_decide
  | apply Forall_forall; by_decide ].

(** Two arguments can be paired position by position: neither is
    [None], they have one container type, and they have the same,
    positive number of elements. *)
Definition alignable {A} `{Countable A} (xs ys : pyobj A) : Prop :=
  xs <> PNone /\ ys <> PNone /\ type_of xs = type_of ys /\
  (0 < cardinal xs)%nat /\ cardinal xs = cardinal ys.

(** A table without rows. *)
Definition no_rows_table : DataFrame :=
  {| df_index := []; df_data := [("COL1", IntCol [])] |}.

(** The index [i] is within an argument that is a list. *)
Definition in_range {A} `{Countable A} (x : pyobj A) (i : nat) : Prop :=
  match x with
  | PList l => (i < length l)%nat
  | _ => True
  end.


(** The elements of a list without repetitions, each at the place of
    its first occurrence. *)
Definition first_occurrences (l : list string) : list string :=
  reverse (remove_dups (reverse l)).

(** The labels of the positions of two column lists, in order. *)
Definition labels (columns1 columns2 : list string) : list string :=
  zip_with format_vs columns1 columns2.

(** Some requested name is not a column of the table. *)
Definition absent_column (t : DataFrame) (columns : pyobj string) : Prop :=
  exists c, c ∈ requested columns /\ c ∉ df_columns t.

Section SumsOfColumns.
Variable float_sum : list spec_float -> spec_float.

(** The sum of a column; a name that is not a column counts as an
    empty column here and raises [KeyError] in the code. *)
Definition column_sum (t : DataFrame) (c : string) : scalar :=
  series_sum float_sum (default (IntCol []) (assoc c (df_data t))).

(** The pairs of names and sums of a list of columns. *)
Definition column_sums (t : DataFrame) (columns : list string)
  : list (string * scalar) :=
  map (fun c => (c, column_sum t c)) columns.

(** The labelled differences of the sums of two lists of columns,
    position by position. *)
Definition sums_diff (t1 t2 : DataFrame) (columns1 columns2 : list string)
  : list (string * scalar) :=
  zip_with (fun c1 c2 => (format_vs c1 c2,
                          scalar_sub (column_sum t1 c1) (column_sum t2 c2)))
    columns1 columns2.
End SumsOfColumns.

(** The values of a 64-bit two's complement integer. *)
Definition int64 (z : Z) : Prop := - 2 ^ 63 <= z < 2 ^ 63.

(** One way to add up a [float64] column: from left to right, without
    the NaN values. It stands for pandas' sum in the examples, whose
    columns are [int64]. *)
Definition sequential_sum (vs : list spec_float) : spec_float :=
  fold_left
    (fun acc v => match v with S754_nan => acc | _ => SFadd prec emax acc v end)
    vs (S754_zero false).

(** A column whose two values add up to [2^63], one more than the
    largest [int64]. *)
Definition overflow_table : DataFrame :=
  {| df_index := [KInt 0; KInt 1];
     df_data := [("COL1", IntCol [2 ^ 62; 2 ^ 62])] |}.

(** Two tables of one [int64] cell each, the least [int64] and 1: the
    exact difference of the cells is no [int64]. *)
Definition least_table : DataFrame :=
  {| df_index := [KInt 0]; df_data := [("COL1", IntCol [- 2 ^ 63])] |}.

Definition one_table : DataFrame :=
  {| df_index := [KInt 0]; df_data := [("col1", IntCol [1])] |}.

(** The difference of a scalar and itself: zero, but NaN for a float
    that is NaN or infinite. *)
Definition self_diff (x : scalar) : scalar :=
  match x with
  | I64 _ => I64 0
  | F64 (S754_zero _) | F64 (S754_finite _ _ _) => F64 (S754_zero false)
  | F64 _ => F64 S754_nan
  end.

(** A float that is not NaN and not infinite, and a zero. *)
Definition is_finite (x : scalar) : Prop :=
  match x with
  | F64 S754_nan | F64 (S754_infinity _) => False
  | _ => True
  end.

Definition is_zero (x : scalar) : Prop :=
  match x with
  | I64 z => z = 0
  | F64 (S754_zero _) => True
  | F64 _ => False
  end.

(** [- x] on numpy scalars. *)
Definition scalar_neg (x : scalar) : scalar :=
  match x with
  | I64 z => I64 (wrap64 (- z))
  | F64 f => F64 (SFopp f)
  end.

(** [y] is the opposite of [x]; two float zeros are opposite whatever
    their signs. *)
Definition opposite (x y : scalar) : Prop :=
  y = scalar_neg x \/
  (exists s s', x = F64 (S754_zero s) /\ y = F64 (S754_zero s')).

(** A threshold below zero. *)
Definition negative (x : number) : Prop :=
  match x with
  | PInt z => z < 0
  | PFloat (S754_finite s _ _) => s = true
  | PFloat (S754_infinity s) => s = true
  | PFloat _ => False
  end.

(** * Properties *)

(** ** The error monad *)

Section MapM.
Context {A B : Type} (f : A -> res B).

Lemma mapM_res_cons x l :
  mapM f (x :: l) = y ← f x; k ← mapM f l; Ok (y :: k).
Proof. reflexivity. Qed.

Lemma mapM_res_Ok l k :
  mapM f l = Ok k <-> Forall2 (fun x y => f x = Ok y) l k.
Proof.
  revert k. induction l as [|x l IH]; intros k; simpl.
  - split.
    + intros [= <-]. constructor.
    + intros Hk. inversion Hk. reflexivity.
  - split.
    + destruct (f x) as [y|e] eqn:Hx; simpl; [|discriminate].
      destruct (mapM f l) as [k'|e]; simpl; [|discriminate].
      intros [= <-]. constructor; [assumption|]. apply IH. reflexivity.
    + intros Hk. inversion Hk as [|? y ? k' Hy Hk']; subst.
      rewrite Hy. simpl. apply IH in Hk'. rewrite Hk'. reflexivity.
Qed.


(** A failing [mapM] fails at its first failing element, with that
    element's exception. *)
Lemma mapM_res_Raise l e :
  mapM f l = Raise e <->
  exists l1 x l2, l = l1 ++ x :: l2 /\
    Forall (fun x => is_ok (f x) = true) l1 /\ f x = Raise e.
Proof.
  split.
  - induction l as [|x l IH]; simpl; [discriminate|].
    destruct (f x) as [y|e'] eqn:Hx; simpl.
    + destruct (mapM f l) as [k|e''] eqn:Hl; simpl; [discriminate|].
      intros [= ->]. destruct (IH eq_refl) as (l1 & x' & l2 & -> & Hl1 & Hx').
      exists (x :: l1), x', l2. split; [reflexivity|]. split; [|assumption].
      constructor; [by rewrite Hx | assumption].
    + intros [= ->]. exists [], x, l. auto.
  - intros (l1 & x & l2 & -> & Hl1 & Hx).
    induction Hl1 as [|x1 l1 Hx1 _ IH]; simpl.
    + rewrite Hx. reflexivity.
    + destruct (f x1); [|discriminate]. simpl. rewrite IH. reflexivity.
Qed.
End MapM.

(** ** Scalars *)

Lemma wrap64_int64 z : int64 (wrap64 z).
Proof.
  unfold int64, wrap64.
  pose proof (Z.mod_pos_bound (z + 2 ^ 63) (2 ^ 64) ltac:(lia)). lia.
Qed.

Lemma wrap64_id z : int64 z -> wrap64 z = z.
Proof.
  unfold int64, wrap64. intros Hz. rewrite Z.mod_small by lia. lia.
Qed.

Lemma wrap64_id_iff z : wrap64 z = z <-> int64 z.
Proof.
  split; [|apply wrap64_id]. intros <-. apply wrap64_int64.
Qed.

Lemma wrap64_add_l a b : wrap64 (wrap64 a + b) = wrap64 (a + b).
Proof.
  unfold wrap64. f_equal.
  replace ((a + 2 ^ 63) mod 2 ^ 64 - 2 ^ 63 + b + 2 ^ 63)
    with ((a + 2 ^ 63) mod 2 ^ 64 + b) by lia.
  rewrite Zplus_mod_idemp_l. f_equal. lia.
Qed.

Lemma wrap64_add_r a b : wrap64 (a + wrap64 b) = wrap64 (a + b).
Proof. by rewrite (Z.add_comm a), wrap64_add_l, (Z.add_comm b). Qed.

Lemma wrap64_opp a : wrap64 (- wrap64 a) = wrap64 (- a).
Proof.
  unfold wrap64. f_equal.
  replace (- ((a + 2 ^ 63) mod 2 ^ 64 - 2 ^ 63) + 2 ^ 63)
    with (2 ^ 64 - (a + 2 ^ 63) mod 2 ^ 64) by lia.
  rewrite Zminus_mod_idemp_r. f_equal. lia.
Qed.

Lemma wrap64_sub a b : wrap64 (wrap64 a - wrap64 b) = wrap64 (a - b).
Proof.
  replace (wrap64 a - wrap64 b) with (wrap64 a + - wrap64 b) by lia.
  rewrite wrap64_add_l.
  rewrite <- wrap64_add_r, wrap64_opp, wrap64_add_r. reflexivity.
Qed.

(** The difference of two [int64] scalars is the exact difference
    reduced to the 64 bits, so the exact one when that is an [int64]. *)
Lemma scalar_sub_int64 a b :
  scalar_sub (I64 a) (I64 b) = I64 (wrap64 (a - b)) /\
  (int64 (a - b) <-> scalar_sub (I64 a) (I64 b) = I64 (a - b)).
Proof.
  split; [reflexivity|]. cbn [scalar_sub]. rewrite <- wrap64_id_iff.
  split; [congruence | intros [= ?]; assumption].
Qed.

(** ** Tables *)

Lemma assoc_None {V} (c : string) (d : list (string * V)) :
  assoc c d = None <-> c ∉ map fst d.
Proof.
  induction d as [|[c' v] d IH]; simpl.
  - split; [intros _; apply not_elem_of_nil | reflexivity].
  - rewrite not_elem_of_cons. destruct (decide (c = c')) as [->|Hne].
    + split; [discriminate | intros [? _]; congruence].
    + rewrite IH. tauto.
Qed.

Lemma assoc_is_Some {V} (c : string) (d : list (string * V)) :
  is_Some (assoc c d) <-> c ∈ map fst d.
Proof.
  rewrite <- not_eq_None_Some, assoc_None.
  destruct (decide (c ∈ map fst d)); tauto.
Qed.

Lemma df_getitem_Ok t c :
  c ∈ df_columns t -> exists vs, assoc c (df_data t) = Some vs /\ df_getitem t c = Ok vs.
Proof.
  intros Hc. apply assoc_is_Some in Hc as [vs Hvs].
  exists vs. unfold df_getitem. rewrite Hvs. auto.
Qed.

Lemma df_getitem_Raise t c e :
  df_getitem t c = Raise e <-> e = KeyError /\ c ∉ df_columns t.
Proof.
  unfold df_getitem, df_columns. rewrite <- assoc_None.
  destruct (assoc c (df_data t)); split; try discriminate.
  - intros [_ ?]; discriminate.
  - intros [= <-]; auto.
  - intros [-> _]; reflexivity.
Qed.

(** The sum of an [int64] column is the arithmetic sum of its values
    reduced to the 64 bits, whatever overflows on the way. *)
Lemma series_sum_arithmetic float_sum vs :
  series_sum float_sum (IntCol vs) = I64 (wrap64 (arithmetic_sum vs)).
Proof.
  unfold series_sum, arithmetic_sum. f_equal.
  assert (forall a, int64 a ->
            fold_left (fun acc v => wrap64 (acc + v)) vs a
            = wrap64 (a + foldr Z.add 0 vs)) as Hacc.
  { induction vs as [|v vs IH]; intros a Ha; simpl.
    - rewrite Z.add_0_r. symmetry. by apply wrap64_id.
    - rewrite IH by apply wrap64_int64. rewrite wrap64_add_l. f_equal. lia. }
  apply Hacc. unfold int64. lia.
Qed.

(** ** [__can_compare] *)

Section CanCompareFacts.
Context {A : Type} `{Countable A}.

Lemma can_compare_lists (l k : list A) :
  can_compare (PList l) (PList k) =
  Ok (bool_decide (l <> [] /\ length l = length k)).
Proof.
  unfold can_compare, isinstance_type, is_not_None, is_Hashable, len, type_of.
  rewrite bool_decide_eq_true_2 by reflexivity. cbn [andb negb mbind res_bind].
  destruct l as [|x l]; [reflexivity|].
  cbn [length Nat.ltb Nat.leb]. f_equal.
  destruct (Nat.eqb_spec (S (length l)) (length k)) as [Heq|Hne]; symmetry.
  - apply bool_decide_eq_true_2. split; [discriminate | exact Heq].
  - apply bool_decide_eq_false_2. tauto.
Qed.

Lemma can_compare_never_raises (xs ys : pyobj A) :
  exists b, can_compare xs ys = Ok b.
Proof.
  unfold can_compare.
  destruct xs, ys; simpl; try (eexists; reflexivity);
    match goal with |- context [(0 <? ?n)%nat] => destruct (0 <? n)%nat end;
    eexists; reflexivity.
Qed.

Lemma can_compare_true (xs ys : pyobj A) :
  can_compare xs ys = Ok true <->
  xs <> PNone /\ ys <> PNone /\ type_of xs = type_of ys /\
  (0 < cardinal xs)%nat /\ (0 < cardinal ys)%nat /\ cardinal xs = cardinal ys.
Proof.
  unfold can_compare, cardinal.
  destruct xs as [|l|s], ys as [|k|s']; simpl;
    try (split; [discriminate | intros (? & ? & ? & _); congruence]).
  - destruct (Nat.ltb_spec 0 (length l)); simpl.
    + split.
      * intros [= Heq%Nat.eqb_eq]. repeat split; try discriminate; lia.
      * intros (_ & _ & _ & _ & _ & ->). by rewrite Nat.eqb_refl.
    + split; [discriminate | intros (_ & _ & _ & ? & _); lia].
  - change (size s) with (length (elements s)).
    change (size s') with (length (elements s')).
    destruct (Nat.ltb_spec 0 (length (elements s))); simpl.
    + split.
      * intros [= Heq%Nat.eqb_eq]. repeat split; try discriminate; lia.
      * intros (_ & _ & _ & _ & _ & ->). by rewrite Nat.eqb_refl.
    + split; [discriminate | intros (_ & _ & _ & ? & _); lia].
Qed.
End CanCompareFacts.

(** C3. For collections that are a set, a list or [None],
    [__can_compare xs ys] never raises and is true exactly when both are
    not [None], both have the same container type, both are non-empty
    and they have the same length; a set and a list with the same
    elements are not comparable: [__can_compare({1,2}, [1,2])] is
    false. *)
Theorem can_compare_iff :
  (forall (A : Type) (EqA : EqDecision A) (CountA : Countable A) (xs ys : pyobj A),
     exists b, can_compare xs ys = Ok b /\
       (b = true <->
        xs <> PNone /\ ys <> PNone /\ type_of xs = type_of ys /\
        (0 < cardinal xs)%nat /\ (0 < cardinal ys)%nat /\
        cardinal xs = cardinal ys)) /\
  can_compare (PSet {[KInt 1; KInt 2]}) (PList [KInt 1; KInt 2]) = Ok false.
Proof.
  split; [|reflexivity].
  intros A EqA CountA xs ys.
  destruct (can_compare_never_raises xs ys) as [b Hb].
  exists b. split; [exact Hb|].
  rewrite <- can_compare_true, Hb.
  split; [intros ->; reflexivity | intros [= ->]; reflexivity].
Qed.

(** ** [compare_column_names] *)

Lemma to_set_requested (S : pyobj string) :
  is_not_None S = true -> to_set S = Ok (list_to_set (requested S)).
Proof.
  destruct S as [|l|s]; simpl; [discriminate|reflexivity|].
  intros _. by rewrite list_to_set_elements_L.
Qed.

(** C5. For a table [T] and a list or set of standard names [S],
    [compare_column_names T S] returns [(matches, mismatches)] with
    [matches] the intersection of [S] and the columns of [T] and
    [mismatches] the columns not in [matches]: together they are the
    columns of [T] and they are disjoint. A name matches when that very
    string is in both, so the case of letters matters; without standard
    names nothing matches and without columns both sets are empty. *)
Theorem compare_column_names_partition (T : DataFrame) (S : pyobj string) :
  is_not_None S = true ->
  exists matches mismatches : gset string,
    compare_column_names T S = Ok (matches, mismatches) /\
    matches = list_to_set (requested S) ∩ list_to_set (df_columns T) /\
    mismatches = list_to_set (df_columns T) ∖ matches /\
    matches ∪ mismatches = list_to_set (df_columns T) /\
    matches ∩ mismatches = ∅ /\
    (forall c, c ∈ matches <-> c ∈ requested S /\ c ∈ df_columns T) /\
    (forall c, c ∈ mismatches <-> c ∈ df_columns T /\ c ∉ requested S) /\
    (requested S = [] -> matches = ∅) /\
    (df_columns T = [] -> matches = ∅ /\ mismatches = ∅).
Proof.
  intros HS. unfold compare_column_names.
  rewrite (to_set_requested S HS). simpl.
  set (std := list_to_set (requested S) : gset string).
  set (cols := list_to_set (df_columns T) : gset string).
  assert (forall c, c ∈ std <-> c ∈ requested S) as Hstd
    by (intros c; apply elem_of_list_to_set).
  assert (forall c, c ∈ cols <-> c ∈ df_columns T) as Hcols
    by (intros c; apply elem_of_list_to_set).
  exists (std ∩ cols), (cols ∖ (std ∩ cols)).
  split; [reflexivity|]. split; [reflexivity|]. split; [reflexivity|].
  split; [|split; [|split; [|split; [|split]]]].
  - apply set_eq. intros c.
    rewrite elem_of_union, elem_of_difference, elem_of_intersection.
    destruct (decide (c ∈ std)); tauto.
  - apply set_eq. intros c.
    rewrite elem_of_intersection, elem_of_difference, elem_of_empty. tauto.
  - intros c. rewrite elem_of_intersection, Hstd, Hcols. tauto.
  - intros c. rewrite elem_of_difference, elem_of_intersection, Hstd, Hcols. tauto.
  - intros Hnil. apply set_eq. intros c.
    rewrite elem_of_intersection, Hstd, Hnil, elem_of_nil, elem_of_empty. tauto.
  - intros Hnil. split; apply set_eq; intros c.
    + rewrite elem_of_intersection, Hcols, Hnil, elem_of_nil, elem_of_empty. tauto.
    + rewrite elem_of_difference, Hcols, Hnil, elem_of_nil, elem_of_empty. tauto.
Qed.

Lemma compare_column_names_partition_witness :
  exists matches mismatches : gset string,
    compare_column_names doc_table (PList ["COL1"; "COL2"; "COL3"]%string)
      = Ok (matches, mismatches) /\
    ("COL1"%string ∈ matches /\ "COL3"%string ∈ matches) /\
    ("col2"%string ∈ mismatches /\ "COL2"%string ∉ matches).
Proof.
  destruct (compare_column_names_partition doc_table
              (PList ["COL1"; "COL2"; "COL3"]%string) eq_refl)
    as (m & mm & Hrun & _ & _ & _ & _ & Hm & Hmm & _).
  exists m, mm. split; [exact Hrun|].
  rewrite !Hm, !Hmm. unfold doc_table, df_columns. simpl.
  rewrite !elem_of_cons, !elem_of_nil.
  intuition congruence.
Defined.

(** ** [sum_column_values] *)

Section SumFacts.
Variable float_sum : list spec_float -> spec_float.

Lemma sum_column_Ok t c o :
  sum_column float_sum t c = Ok o <->
  exists s, assoc c (df_data t) = Some s /\ o = (c, series_sum float_sum s).
Proof.
  unfold sum_column, df_getitem.
  destruct (assoc c (df_data t)) as [s|]; simpl.
  - split; [intros [= <-]; eauto | intros (? & [= <-] & ->); reflexivity].
  - split; [discriminate | intros (? & ? & _); discriminate].
Qed.

Lemma sum_column_Raise t c e :
  sum_column float_sum t c = Raise e <-> e = KeyError /\ c ∉ df_columns t.
Proof.
  unfold sum_column. rewrite <- df_getitem_Raise.
  destruct (df_getitem t c); simpl; split; congruence.
Qed.

End SumFacts.




(** C7. [sum_column_values] raises [KeyError] exactly when one of the
    requested names is not a column of the table; then there is no
    result at all, and a result, when there is one, has a pair for
    every requested name. *)
Theorem sum_column_values_KeyError_iff (float_sum : list spec_float -> spec_float)
    (t : DataFrame) (columns : pyobj string) :
  (sum_column_values float_sum t columns = Raise KeyError <->
   exists c, c ∈ requested columns /\ c ∉ df_columns t) /\
  ((exists c, c ∈ requested columns /\ c ∉ df_columns t) ->
   forall out, sum_column_values float_sum t columns <> Ok out) /\
  (forall out, sum_column_values float_sum t columns = Ok out ->
     map fst out = requested columns).
Proof.
  assert (forall l : list string,
            mapM (sum_column float_sum t) l = Raise KeyError <->
            exists c, c ∈ l /\ c ∉ df_columns t) as Hlist.
  { intros l. rewrite mapM_res_Raise. split.
    - intros (l1 & c & l2 & -> & _ & Hc). exists c.
      apply sum_column_Raise in Hc as [_ Hc].
      split; [|exact Hc]. apply elem_of_app. right. apply elem_of_cons. auto.
    - intros (c & Hc & Habs).
      destruct (mapM (sum_column float_sum t) l) as [out|e] eqn:Hrun.
      + apply mapM_res_Ok in Hrun.
        apply list_elem_of_lookup in Hc as [i Hi].
        destruct (Forall2_lookup_l _ _ _ _ _ Hrun Hi) as (o & _ & Ho).
        apply sum_column_Ok in Ho as (vs & Hvs & _).
        apply assoc_None in Habs. congruence.
      + apply mapM_res_Raise in Hrun as (l1 & c' & l2 & -> & Hl1 & Hc').
        exists l1, c', l2. split; [reflexivity|]. split; [exact Hl1|].
        rewrite Hc'. f_equal. by apply sum_column_Raise in Hc' as [-> _]. }
  assert (sum_column_values float_sum t columns = Raise KeyError <->
          exists c, c ∈ requested columns /\ c ∉ df_columns t) as Hiff.
  { unfold sum_column_values. destruct columns as [|l|s]; simpl.
    - split; [discriminate | intros (c & Hc & _); by apply elem_of_nil in Hc].
    - apply Hlist.
    - apply Hlist. }
  split; [exact Hiff|]. split.
  - intros Habs out Hout. apply Hiff in Habs. congruence.
  - assert (forall (l : list string) out,
              mapM (sum_column float_sum t) l = Ok out -> map fst out = l) as Hfst.
    { intros l out Hout%mapM_res_Ok.
      induction Hout as [|c o cs os Ho%sum_column_Ok _ IH]; simpl; [reflexivity|].
      destruct Ho as (vs & _ & ->). simpl. congruence. }
    intros out. unfold sum_column_values.
    destruct columns as [|l|s]; simpl; [discriminate| |]; apply Hfst.
Qed.

Lemma sum_column_values_KeyError_example :
  sum_column_values sequential_sum scenario_table1
    (PList ["COL1"; "col1"; "COL3"]%string)
  = Raise KeyError.
Proof. reflexivity. Qed.

(** ** [compare_column_sums] *)



(** ** Dictionaries *)

Section Dict.
Context {V : Type}.
Implicit Types (d : list (string * V)) (k : string) (v : V).

Lemma dict_get_set_eq k v d : dict_get k (dict_set k v d) = Some v.
Proof.
  unfold dict_get. induction d as [|[k' v'] d IH]; simpl.
  - by rewrite decide_True.
  - destruct (decide (k = k')) as [->|Hne]; simpl.
    + by rewrite decide_True.
    + by rewrite decide_False.
Qed.

Lemma dict_get_set_ne k k' v d :
  k <> k' -> dict_get k' (dict_set k v d) = dict_get k' d.
Proof.
  intros Hne. unfold dict_get. induction d as [|[k0 v0] d IH]; simpl.
  - by rewrite decide_False.
  - destruct (decide (k = k0)) as [->|Hne0]; simpl.
    + by rewrite !decide_False.
    + destruct (decide (k' = k0)); [reflexivity | exact IH].
Qed.

Lemma dict_keys_set k v d x :
  x ∈ dict_keys (dict_set k v d) <-> x = k \/ x ∈ dict_keys d.
Proof.
  unfold dict_keys. induction d as [|[k' v'] d IH]; simpl.
  - rewrite elem_of_cons, elem_of_nil. tauto.
  - destruct (decide (k = k')) as [->|Hne]; simpl.
    + rewrite !elem_of_cons. tauto.
    + rewrite !elem_of_cons, IH. tauto.
Qed.

Lemma dict_set_NoDup k v d :
  NoDup (dict_keys d) -> NoDup (dict_keys (dict_set k v d)).
Proof.
  unfold dict_keys. induction d as [|[k' v'] d IH]; simpl.
  - intros _. apply NoDup_singleton.
  - rewrite NoDup_cons. intros [Hk' Hd].
    destruct (decide (k = k')) as [->|Hne]; simpl.
    + apply NoDup_cons. auto.
    + apply NoDup_cons. split; [|auto].
      intros Hin. apply (dict_keys_set k v d k') in Hin as [->|Hin]; tauto.
Qed.

Lemma dict_of_items_snoc (items : list (string * V)) k v :
  dict_of_items (items ++ [(k, v)]) = dict_set k v (dict_of_items items).
Proof. unfold dict_of_items. by rewrite fold_left_app. Qed.

Lemma dict_of_items_NoDup (items : list (string * V)) :
  NoDup (dict_keys (dict_of_items items)).
Proof.
  induction items as [|[k v] items IH] using rev_ind.
  - apply NoDup_nil_2.
  - rewrite dict_of_items_snoc. by apply dict_set_NoDup.
Qed.

Lemma dict_of_items_keys (items : list (string * V)) x :
  x ∈ dict_keys (dict_of_items items) <-> x ∈ map fst items.
Proof.
  induction items as [|[k v] items IH] using rev_ind.
  - reflexivity.
  - rewrite dict_of_items_snoc, dict_keys_set, IH, map_app, elem_of_app.
    simpl. rewrite list_elem_of_singleton. tauto.
Qed.

(** The entry of a key is the value of the last item with that key. *)
Lemma dict_of_items_last (items : list (string * V)) i k v :
  items !! i = Some (k, v) ->
  (forall i' kv, (i < i')%nat -> items !! i' = Some kv -> fst kv <> k) ->
  dict_get k (dict_of_items items) = Some v.
Proof.
  revert i. induction items as [|[k' v'] items IH] using rev_ind; intros i Hi Hlast.
  - by rewrite lookup_nil in Hi.
  - rewrite dict_of_items_snoc.
    destruct (decide (i = length items)) as [->|Hne].
    + rewrite lookup_app_r, Nat.sub_diag in Hi by lia.
      injection Hi as [= -> ->]. apply dict_get_set_eq.
    + assert (i < length items)%nat as Hlt.
      { apply lookup_lt_Some in Hi. rewrite length_app in Hi. simpl in Hi. lia. }
      rewrite lookup_app_l in Hi by exact Hlt.
      rewrite dict_get_set_ne.
      * apply (IH i Hi). intros i' kv Hlt' Hkv.
        apply (Hlast i' kv Hlt'). rewrite lookup_app_l; [exact Hkv|].
        by apply lookup_lt_Some in Hkv.
      * intros ->. apply (Hlast (length items) (k, v')); [exact Hlt| |reflexivity].
        by rewrite lookup_app_r, Nat.sub_diag by lia.
Qed.

(** Every key of the items has a last position. *)
Lemma last_position (items : list (string * V)) i kv :
  items !! i = Some kv ->
  exists i' kv', (i <= i')%nat /\ items !! i' = Some kv' /\ fst kv' = fst kv /\
    forall i'' kv'', (i' < i'')%nat -> items !! i'' = Some kv'' -> fst kv'' <> fst kv.
Proof.
  revert i. induction items as [|kv0 items IH] using rev_ind; intros i Hi.
  - by rewrite lookup_nil in Hi.
  - destruct (decide (fst kv0 = fst kv)) as [Heq|Hne].
    + exists (length items), kv0. split.
      { apply lookup_lt_Some in Hi. rewrite length_app in Hi. simpl in Hi. lia. }
      split; [by rewrite lookup_app_r, Nat.sub_diag by lia|].
      split; [exact Heq|].
      intros i'' kv'' Hlt Hkv''. apply lookup_lt_Some in Hkv''.
      rewrite length_app in Hkv''. simpl in Hkv''. lia.
    + assert (i < length items)%nat as Hlt.
      { destruct (decide (i = length items)) as [->|?].
        - rewrite lookup_app_r, Nat.sub_diag in Hi by lia. simpl in Hi. congruence.
        - apply lookup_lt_Some in Hi. rewrite length_app in Hi. simpl in Hi. lia. }
      rewrite lookup_app_l in Hi by exact Hlt.
      destruct (IH i Hi) as (i' & kv' & Hle & Hi' & Hk & Hlast).
      exists i', kv'. split; [exact Hle|].
      split; [rewrite lookup_app_l; [exact Hi'|by apply lookup_lt_Some in Hi']|].
      split; [exact Hk|].
      intros i'' kv'' Hlt'' Hkv''.
      destruct (decide (i'' = length items)) as [->|?].
      * rewrite lookup_app_r, Nat.sub_diag in Hkv'' by lia. simpl in Hkv''. congruence.
      * apply (Hlast i'' kv'' Hlt''). rewrite lookup_app_l in Hkv''; [exact Hkv''|].
        apply lookup_lt_Some in Hkv''. rewrite length_app in Hkv''. simpl in Hkv''. lia.
Qed.
End Dict.

(** ** Loops *)

Lemma mapM_res_seq {B} (f : nat -> res B) (l : list B) (s : nat) :
  (forall j y, l !! j = Some y -> f (s + j)%nat = Ok y) ->
  mapM f (seq s (length l)) = Ok l.
Proof.
  revert s. induction l as [|y l IH]; intros s Hf; simpl; [reflexivity|].
  rewrite <- (Nat.add_0_r s) at 1. rewrite (Hf 0%nat y eq_refl). simpl.
  rewrite (IH (S s)); [reflexivity|].
  intros j y' Hj. rewrite <- (Hf (S j) y' Hj). f_equal. lia.
Qed.

Lemma for_each_dict_set {V} (body : nat -> list (string * V) -> res (list (string * V)))
    (items : list (string * V)) (s : nat) (d : list (string * V)) :
  (forall i kv d', items !! i = Some kv ->
     body (s + i)%nat d' = Ok (dict_set (fst kv) (snd kv) d')) ->
  for_each body (seq s (length items)) d =
  Ok (fold_left (fun d kv => dict_set (fst kv) (snd kv) d) items d).
Proof.
  revert s d. induction items as [|kv items IH]; intros s d Hbody; simpl; [reflexivity|].
  rewrite <- (Nat.add_0_r s) at 1. rewrite (Hbody 0%nat kv d eq_refl). simpl.
  apply IH. intros i kv' d' Hi. rewrite <- (Hbody (S i) kv' d' Hi). f_equal. lia.
Qed.

(** ** Cells *)

Lemma assoc_Some_elem_of {V} (c : string) (d : list (string * V)) v :
  assoc c d = Some v -> (c, v) ∈ d.
Proof.
  induction d as [|[c' v'] d IH]; simpl; [discriminate|].
  destruct (decide (c = c')) as [->|_].
  - intros [= ->]. apply elem_of_cons. auto.
  - intros Hd. apply elem_of_cons. auto.
Qed.

Lemma index_of_is_Some (r : key) (idx : list key) :
  r ∈ idx -> exists p, index_of r idx = Some p /\ (p < length idx)%nat.
Proof.
  induction idx as [|r' idx IH]; simpl.
  - intros Hr. by apply elem_of_nil in Hr.
  - rewrite elem_of_cons. intros Hr. destruct (decide (r = r')) as [->|Hne].
    + exists 0%nat. split; [reflexivity | lia].
    + destruct Hr as [?|Hr]; [congruence|].
      destruct (IH Hr) as (p & -> & Hp). exists (S p). split; [reflexivity | lia].
Qed.

Lemma col_at_is_Some (s : column) (p : nat) :
  is_Some (col_at s p) <-> (p < col_length s)%nat.
Proof.
  destruct s as [vs|vs]; cbn [col_at col_length];
    rewrite fmap_is_Some; apply lookup_lt_is_Some.
Qed.

Lemma df_cell_is_Some (t : DataFrame) (r : key) (c : string) :
  df_wf t -> c ∈ df_columns t -> r ∈ df_index t -> is_Some (df_cell t r c).
Proof.
  intros Hwf Hc Hr. unfold df_cell.
  apply assoc_is_Some in Hc as [vs Hvs]. rewrite Hvs. simpl.
  destruct (index_of_is_Some r (df_index t) Hr) as (p & -> & Hp). simpl.
  apply col_at_is_Some.
  pose proof (wf_lengths t Hwf) as Hlen. rewrite Forall_forall in Hlen.
  apply assoc_Some_elem_of in Hvs. apply Hlen in Hvs. simpl in Hvs. lia.
Qed.

(** ** [compare_column_values] *)

Section CompareFacts.
Variables t1 t2 : DataFrame.
Variables columns1 columns2 : list string.
Variables rows1 rows2 : list key.
Hypothesis Hvalid : valid_comparison t1 t2 columns1 columns2 rows1 rows2.

Lemma column_diff_length c1 c2 :
  length (column_diff t1 t2 rows1 rows2 c1 c2) = length rows1.
Proof.
  unfold column_diff. rewrite length_zip_with.
  destruct (vc_rows _ _ _ _ _ _ Hvalid) as [_ Hlen]. lia.
Qed.

Lemma column_diff_lookup c1 c2 j r1 r2 :
  c1 ∈ columns1 -> c2 ∈ columns2 ->
  rows1 !! j = Some r1 -> rows2 !! j = Some r2 ->
  exists v1 v2,
    df_cell t1 r1 c1 = Some v1 /\ df_cell t2 r2 c2 = Some v2 /\
    column_diff t1 t2 rows1 rows2 c1 c2 !! j
    = Some (format_vs r1 r2, scalar_sub v1 v2).
Proof.
  intros Hc1 Hc2 Hr1 Hr2.
  destruct (df_cell_is_Some t1 r1 c1) as [v1 Hv1].
  { apply Hvalid. } { by apply Hvalid. }
  { apply Hvalid. apply list_elem_of_lookup. eauto. }
  destruct (df_cell_is_Some t2 r2 c2) as [v2 Hv2].
  { apply Hvalid. } { by apply Hvalid. }
  { apply Hvalid. apply list_elem_of_lookup. eauto. }
  exists v1, v2. split; [exact Hv1|]. split; [exact Hv2|].
  unfold column_diff. rewrite lookup_zip_with, Hr1. simpl. rewrite Hr2. simpl.
  by rewrite Hv1, Hv2.
Qed.

Lemma column_diff_is_diff c1 c2 :
  c1 ∈ columns1 -> c2 ∈ columns2 ->
  is_diff t1 t2 c1 c2 rows1 rows2 (column_diff t1 t2 rows1 rows2 c1 c2).
Proof.
  intros Hc1 Hc2. split; [apply column_diff_length|].
  intros j r1 r2. by apply column_diff_lookup.
Qed.

Lemma diff_at_Ok i j c1 c2 y :
  columns1 !! i = Some c1 -> columns2 !! i = Some c2 ->
  column_diff t1 t2 rows1 rows2 c1 c2 !! j = Some y ->
  diff_at t1 t2 (PList columns1) (PList columns2) (PList rows1) (PList rows2) i j
  = Ok y.
Proof.
  intros Hc1 Hc2 Hy. unfold column_diff in Hy.
  rewrite lookup_zip_with in Hy.
  destruct (rows1 !! j) as [r1|] eqn:Hr1; [|discriminate]. simpl in Hy.
  destruct (rows2 !! j) as [r2|] eqn:Hr2; [|discriminate]. simpl in Hy.
  injection Hy as <-.
  destruct (column_diff_lookup c1 c2 j r1 r2) as (v1 & v2 & Hv1 & Hv2 & _);
    try assumption; try (apply list_elem_of_lookup; eauto).
  unfold diff_at, getitem, df_at. rewrite Hr1, Hr2, Hc1, Hc2. simpl.
  rewrite Hv1. simpl. rewrite Hv2. reflexivity.
Qed.

Lemma compare_body_Ok i kv d :
  diff_items t1 t2 columns1 columns2 rows1 rows2 !! i = Some kv ->
  compare_body t1 t2 (PList columns1) (PList columns2) (PList rows1) (PList rows2) i d
  = Ok (dict_set (fst kv) (snd kv) d).
Proof.
  unfold diff_items. rewrite lookup_zip_with.
  destruct (columns1 !! i) as [c1|] eqn:Hc1; [|discriminate]. simpl.
  destruct (columns2 !! i) as [c2|] eqn:Hc2; [|discriminate]. simpl.
  intros [= <-]. unfold compare_body. simpl.
  rewrite <- (column_diff_length c1 c2).
  rewrite (mapM_res_seq _ (column_diff t1 t2 rows1 rows2 c1 c2) 0).
  - simpl. rewrite Hc1, Hc2. reflexivity.
  - intros j y Hy. by apply (diff_at_Ok i j c1 c2).
Qed.

Lemma diff_items_length :
  length (diff_items t1 t2 columns1 columns2 rows1 rows2) = length columns1.
Proof.
  unfold diff_items. rewrite length_zip_with.
  destruct (vc_columns _ _ _ _ _ _ Hvalid) as [_ Hlen]. lia.
Qed.

(** With valid arguments the call returns the dictionary of the
    assignments of the loop, whatever the depth left. *)
Lemma compare_column_values_rec_items fuel :
  compare_column_values_rec t1 t2 (PList columns1) (PList columns2)
    (S fuel) (PList rows1) (PList rows2)
  = Ok (dict_of_items (diff_items t1 t2 columns1 columns2 rows1 rows2)).
Proof.
  cbn [compare_column_values_rec]. rewrite can_compare_lists.
  rewrite bool_decide_eq_true_2 by apply Hvalid.
  cbn [mbind res_bind negb is_not_None andb].
  rewrite can_compare_lists.
  rewrite bool_decide_eq_true_2 by apply Hvalid.
  cbn [mbind res_bind negb len].
  rewrite <- diff_items_length.
  rewrite (for_each_dict_set _ (diff_items t1 t2 columns1 columns2 rows1 rows2) 0 []).
  - reflexivity.
  - intros i kv d'. apply compare_body_Ok.
Qed.
End CompareFacts.

(** Omitting both row lists is passing the indexes of the tables. *)
Lemma compare_column_values_omitted t1 t2 columns1 columns2 :
  compare_column_values t1 t2 columns1 columns2 PNone PNone =
  compare_column_values t1 t2 columns1 columns2
    (PList (df_index t1)) (PList (df_index t2)).
Proof.
  unfold compare_column_values, recursion_limit.
  cbn [compare_column_values_rec].
  destruct (can_compare columns1 columns2) as [[|]|e]; reflexivity.
Qed.

(** Two frames of the call stack are enough: the result does not depend
    on the depth left beyond them. *)
Lemma compare_column_values_fuel t1 t2 columns1 columns2 fuel rows1 rows2 :
  compare_column_values_rec t1 t2 columns1 columns2 (S (S fuel)) rows1 rows2 =
  compare_column_values t1 t2 columns1 columns2 rows1 rows2.
Proof.
  unfold compare_column_values, recursion_limit.
  change 1000%nat with (S (S 998)).
  cbn [compare_column_values_rec].
  destruct (can_compare columns1 columns2) as [[|]|e]; reflexivity.
Qed.

Lemma compare_column_values_items t1 t2 columns1 columns2 rows1 rows2 :
  valid_comparison t1 t2 columns1 columns2 rows1 rows2 ->
  compare_column_values t1 t2 (PList columns1) (PList columns2)
    (PList rows1) (PList rows2)
  = Ok (dict_of_items (diff_items t1 t2 columns1 columns2 rows1 rows2)).
Proof. intros Hvalid. by apply compare_column_values_rec_items. Qed.

Lemma effective_rows_run t1 t2 columns1 columns2 rows1 rows2 :
  rows_aligned rows1 rows2 ->
  compare_column_values t1 t2 columns1 columns2 rows1 rows2 =
  compare_column_values t1 t2 columns1 columns2
    (PList (effective_rows t1 rows1)) (PList (effective_rows t2 rows2)).
Proof.
  intros [[-> ->]|(l1 & l2 & -> & ->)]; [|reflexivity].
  apply compare_column_values_omitted.
Qed.

Section LastDiff.
Variables t1 t2 : DataFrame.
Variables columns1 columns2 : list string.
Variables rows1 rows2 : list key.
Hypothesis Hvalid : valid_comparison t1 t2 columns1 columns2 rows1 rows2.

Let items := diff_items t1 t2 columns1 columns2 rows1 rows2.

Lemma diff_items_lookup i kv :
  items !! i = Some kv <->
  exists a b, columns1 !! i = Some a /\ columns2 !! i = Some b /\
    kv = (format_vs a b, column_diff t1 t2 rows1 rows2 a b).
Proof.
  unfold items, diff_items. rewrite lookup_zip_with.
  destruct (columns1 !! i) as [a|]; simpl.
  - destruct (columns2 !! i) as [b|]; simpl.
    + split; [intros [= <-]; eauto | intros (? & ? & [= <-] & [= <-] & ->); reflexivity].
    + split; [discriminate | intros (? & ? & _ & ? & _); discriminate].
  - split; [discriminate | intros (? & ? & ? & _); discriminate].
Qed.

Lemma label_at_items i :
  label_at columns1 columns2 i = fst <$> items !! i.
Proof.
  unfold label_at, items, diff_items. rewrite lookup_zip_with.
  destruct (columns1 !! i); simpl; [|reflexivity].
  destruct (columns2 !! i); reflexivity.
Qed.

Lemma dict_of_items_holds_last_diff :
  holds_last_diff t1 t2 columns1 columns2 rows1 rows2 (dict_of_items items).
Proof.
  intros i a b Ha Hb.
  assert (items !! i = Some (format_vs a b, column_diff t1 t2 rows1 rows2 a b)) as Hi
    by (apply diff_items_lookup; eauto).
  destruct (last_position items i _ Hi) as (k & kv & Hle & Hk & Hfst & Hlast).
  pose proof Hk as Hk'. apply diff_items_lookup in Hk' as (a' & b' & Ha' & Hb' & ->).
  simpl in Hfst.
  exists k, a', b', (column_diff t1 t2 rows1 rows2 a' b').
  split; [exact Hle|]. split; [exact Ha'|]. split; [exact Hb'|].
  split; [exact Hfst|]. split; [|split].
  - intros k' Hlt. rewrite label_at_items.
    destruct (items !! k') as [kv''|] eqn:Hk''; simpl; [|discriminate].
    intros [= Heq]. by apply (Hlast k' kv'' Hlt Hk'').
  - rewrite <- Hfst. apply (dict_of_items_last items k); [exact Hk|].
    intros k' kv'' Hlt Hk''. simpl. rewrite Hfst. by apply (Hlast k' kv'' Hlt Hk'').
  - apply (column_diff_is_diff _ _ columns1 columns2 _ _ Hvalid);
      apply list_elem_of_lookup; eauto.
Qed.

Lemma dict_of_items_holds_every_diff :
  (forall i k a b a' b',
     columns1 !! i = Some a -> columns2 !! i = Some b ->
     columns1 !! k = Some a' -> columns2 !! k = Some b' ->
     format_vs a b = format_vs a' b' -> a = a' /\ b = b') ->
  holds_every_diff t1 t2 columns1 columns2 rows1 rows2 (dict_of_items items).
Proof.
  intros Hinj i a b Ha Hb.
  destruct (dict_of_items_holds_last_diff i a b Ha Hb)
    as (k & a' & b' & l & _ & Ha' & Hb' & Hfmt & _ & Hget & Hdiff).
  destruct (Hinj i k a b a' b' Ha Hb Ha' Hb') as [-> ->]; [by rewrite Hfmt|].
  eauto.
Qed.

(** Two positions with one label leave fewer keys than positions. *)
Lemma dict_of_items_fewer_keys i k :
  i <> k -> is_Some (label_at columns1 columns2 i) ->
  label_at columns1 columns2 i = label_at columns1 columns2 k ->
  (length (dict_keys (dict_of_items items)) < length columns1)%nat.
Proof.
  intros Hne [x Hx] Heq. rewrite <- (diff_items_length _ _ _ _ _ _ Hvalid).
  fold items. rewrite label_at_items in Hx. rewrite !label_at_items in Heq.
  assert (is_Some (items !! i)) as Hi by (destruct (items !! i); [eauto | discriminate]).
  assert (length (dict_keys (dict_of_items items))
          <= length (delete i (fst <$> items)))%nat as Hle.
  { apply submseteq_length, NoDup_submseteq; [apply dict_of_items_NoDup|].
    intros y Hy. apply (proj1 (dict_of_items_keys items y)) in Hy.
    apply list_elem_of_lookup in Hy as [j Hj].
    change (map fst ?l) with (fst <$> l) in Hj.
    destruct (decide (j = i)) as [->|Hji].
    - apply list_elem_of_lookup.
      rewrite list_lookup_fmap, Heq, <- list_lookup_fmap in Hj.
      destruct (decide (k < i)%nat).
      + exists k. by rewrite list_lookup_delete_lt.
      + exists (k - 1)%nat. rewrite list_lookup_delete_ge by lia.
        by replace (S (k - 1)) with k by lia.
    - apply list_elem_of_lookup. destruct (decide (j < i)%nat).
      + exists j. by rewrite list_lookup_delete_lt.
      + exists (j - 1)%nat. rewrite list_lookup_delete_ge by lia.
        by replace (S (j - 1)) with j by lia. }
  rewrite length_delete, length_fmap in Hle.
  - destruct Hi as [? Hi%lookup_lt_Some]. lia.
  - rewrite list_lookup_fmap. destruct Hi as [? ->]. eauto.
Qed.
End LastDiff.

Lemma scenario_valid :
  valid_comparison scenario_table1 scenario_table2
    ["COL1"%string] ["col1"%string] [KInt 0; KInt 1] [KInt 0; KInt 1].
Proof. concrete_valid. Defined.

(** C1 (amended). For tables that satisfy the invariant of the data
    model, non-empty lists of the same length of names of columns of
    the tables, and row arguments that are both omitted (then the
    indexes of the tables are compared) or both lists, in either case
    non-empty, of the same length and of row labels of the tables,
    [compare_column_values] returns a dictionary that holds, under the
    label ["{columns1[i]} [vs] {columns2[i]}"] of every position [i],
    the list of the pairs of ["{rows1[j]} [vs] {rows2[j]}"] and the
    difference of the two cells, computed for the last position whose
    label is that string; this is the list of position [i] itself when
    positions with equal labels have equal pairs of names. The
    difference is that of the two cells as scalars: of two [int64]
    cells it is the exact difference reduced to the 64 bits of an
    [int64], the exact difference when that is an [int64]. For the
    tables of the scenario, comparing [COL1] with [col1] gives
    [{"COL1 [vs] col1": [("0 [vs] 0", 0), ("1 [vs] 1", 2)]}]. *)
Theorem compare_column_values_last_diff (t1 t2 : DataFrame)
    (columns1 columns2 : list string) (rows1 rows2 : pyobj key) :
  rows_aligned rows1 rows2 ->
  valid_comparison t1 t2 columns1 columns2
    (effective_rows t1 rows1) (effective_rows t2 rows2) ->
  (exists d,
     compare_column_values t1 t2 (PList columns1) (PList columns2) rows1 rows2
       = Ok d /\
     holds_last_diff t1 t2 columns1 columns2
       (effective_rows t1 rows1) (effective_rows t2 rows2) d /\
     ((forall i k a b a' b',
         columns1 !! i = Some a -> columns2 !! i = Some b ->
         columns1 !! k = Some a' -> columns2 !! k = Some b' ->
         format_vs a b = format_vs a' b' -> a = a' /\ b = b') ->
      holds_every_diff t1 t2 columns1 columns2
        (effective_rows t1 rows1) (effective_rows t2 rows2) d)) /\
  (forall a b,
     scalar_sub (I64 a) (I64 b) = I64 (wrap64 (a - b)) /\
     (int64 (a - b) <-> scalar_sub (I64 a) (I64 b) = I64 (a - b))) /\
  compare_column_values scenario_table1 scenario_table2
    (PList ["COL1"%string]) (PList ["col1"%string]) PNone PNone
  = Ok [("COL1 [vs] col1"%string,
         [("0 [vs] 0"%string, I64 0); ("1 [vs] 1"%string, I64 2)])].
Proof.
  intros Hrows Hvalid. split; [|split; [apply scalar_sub_int64 | reflexivity]].
  eexists. split; [|split].
  - rewrite (effective_rows_run _ _ _ _ _ _ Hrows).
    by apply compare_column_values_items.
  - by apply dict_of_items_holds_last_diff.
  - by apply dict_of_items_holds_every_diff.
Qed.

Lemma compare_column_values_last_diff_witness :
  exists d,
    compare_column_values scenario_table1 scenario_table2
      (PList ["COL1"%string]) (PList ["col1"%string]) PNone PNone = Ok d /\
    holds_last_diff scenario_table1 scenario_table2
      ["COL1"%string] ["col1"%string] [KInt 0; KInt 1] [KInt 0; KInt 1] d.
Proof.
  destruct (compare_column_values_last_diff scenario_table1 scenario_table2
              ["COL1"%string] ["col1"%string] PNone PNone)
    as [(d & Hrun & Hlast & _) _].
  - left. split; reflexivity.
  - exact scenario_valid.
  - exists d. split; [exact Hrun | exact Hlast].
Defined.

Lemma collision_valid :
  valid_comparison collision_table1 collision_table2
    ["a [vs] b"%string; "a"%string] ["c"%string; "b [vs] c"%string]
    [KInt 0] [KInt 0].
Proof. concrete_valid. Defined.

(** Two different pairs of column names with one label: the entry of
    the label is the list of the second pair, not of the first. Also,
    supplied empty row lists and sets of column names are rejected. *)
Lemma compare_column_values_label_collision :
  (exists d,
     compare_column_values collision_table1 collision_table2
       (PList ["a [vs] b"%string; "a"%string])
       (PList ["c"%string; "b [vs] c"%string]) PNone PNone = Ok d /\
     ~ holds_every_diff collision_table1 collision_table2
         ["a [vs] b"%string; "a"%string] ["c"%string; "b [vs] c"%string]
         [KInt 0] [KInt 0] d) /\
  compare_column_values scenario_table1 scenario_table2
    (PList ["COL1"%string]) (PList ["col1"%string]) (PList []) (PList [])
  = Raise ValueError /\
  compare_column_values scenario_table1 scenario_table2
    (PSet {["COL1"%string]}) (PSet {["col1"%string]}) PNone PNone
  = Raise TypeError.
Proof.
  split; [|split; reflexivity].
  eexists. split; [reflexivity|].
  intros Hall.
  destruct (Hall 0%nat "a [vs] b"%string "c"%string eq_refl eq_refl)
    as (l & Hget & _ & Hl).
  vm_compute in Hget. injection Hget as <-.
  destruct (Hl 0%nat (KInt 0) (KInt 0) eq_refl eq_refl) as (v1 & v2 & Hv1 & Hv2 & Hj).
  vm_compute in Hv1, Hv2. injection Hv1 as <-. injection Hv2 as <-.
  vm_compute in Hj. discriminate.
Qed.

(** The least [int64] minus 1 is no [int64]: the difference that is
    returned is the greatest [int64]. *)
Lemma compare_column_values_int64_wrap :
  compare_column_values least_table one_table
    (PList ["COL1"%string]) (PList ["col1"%string]) PNone PNone
  = Ok [("COL1 [vs] col1"%string, [("0 [vs] 0"%string, I64 (2 ^ 63 - 1))])].
Proof. reflexivity. Qed.

(** C9 (amended). With valid arguments in which one pair of names
    occurs at two positions [i] and [k], the result has exactly one
    entry under the label of the pair and fewer keys than positions;
    the entry is the difference list of the last position that has that
    label, which is the list of the pair itself when no position after
    both has the label. The differences in the list are those of the
    cells as scalars, [int64] ones with wrap-around. *)
Theorem compare_column_values_repeated_pair (t1 t2 : DataFrame)
    (columns1 columns2 : list string) (rows1 rows2 : pyobj key)
    (i k : nat) (a b : string) :
  rows_aligned rows1 rows2 ->
  valid_comparison t1 t2 columns1 columns2
    (effective_rows t1 rows1) (effective_rows t2 rows2) ->
  i <> k ->
  columns1 !! i = Some a -> columns2 !! i = Some b ->
  columns1 !! k = Some a -> columns2 !! k = Some b ->
  exists d l,
    compare_column_values t1 t2 (PList columns1) (PList columns2) rows1 rows2
      = Ok d /\
    NoDup (dict_keys d) /\
    format_vs a b ∈ dict_keys d /\
    dict_get (format_vs a b) d = Some l /\
    (exists m a' b',
       (i `max` k <= m)%nat /\
       columns1 !! m = Some a' /\ columns2 !! m = Some b' /\
       format_vs a' b' = format_vs a b /\
       (forall m', (m < m')%nat ->
          label_at columns1 columns2 m' <> Some (format_vs a b)) /\
       is_diff t1 t2 a' b' (effective_rows t1 rows1) (effective_rows t2 rows2) l) /\
    ((forall m', (i `max` k < m')%nat ->
        label_at columns1 columns2 m' <> Some (format_vs a b)) ->
     is_diff t1 t2 a b (effective_rows t1 rows1) (effective_rows t2 rows2) l) /\
    (length (dict_keys d) < length columns1)%nat.
Proof.
  intros Hrows Hvalid Hne Hia Hib Hka Hkb.
  set (r1 := effective_rows t1 rows1) in *.
  set (r2 := effective_rows t2 rows2) in *.
  set (items := diff_items t1 t2 columns1 columns2 r1 r2).
  assert (columns1 !! (i `max` k)%nat = Some a /\ columns2 !! (i `max` k)%nat = Some b)
    as [Hma Hmb] by (destruct (Nat.max_spec i k) as [[_ ->]|[_ ->]]; auto).
  destruct (dict_of_items_holds_last_diff _ _ _ _ _ _ Hvalid _ a b Hma Hmb)
    as (m & a' & b' & l & Hle & Ha' & Hb' & Hfmt & Hlast & Hget & Hdiff).
  exists (dict_of_items items), l.
  split; [rewrite (effective_rows_run _ _ _ _ _ _ Hrows);
          by apply compare_column_values_items|].
  split; [apply dict_of_items_NoDup|].
  split.
  { apply dict_of_items_keys. apply list_elem_of_lookup. exists i.
    change (map fst ?x) with (fst <$> x).
    rewrite list_lookup_fmap. unfold items. rewrite <- label_at_items.
    unfold label_at. by rewrite Hia, Hib. }
  split; [exact Hget|]. split; [eauto 10|]. split.
  - intros Hnone.
    destruct (decide (m = i `max` k)%nat) as [->|Hm].
    + rewrite Hma in Ha'. rewrite Hmb in Hb'. by simplify_eq.
    + exfalso. apply (Hnone m); [lia|].
      unfold label_at. rewrite Ha', Hb'. simpl. by rewrite Hfmt.
  - apply (dict_of_items_fewer_keys _ _ _ _ _ _ Hvalid i k Hne).
    + unfold label_at. rewrite Hia, Hib. eauto.
    + unfold label_at. by rewrite Hia, Hib, Hka, Hkb.
Qed.

Lemma repeated_valid :
  valid_comparison scenario_table1 scenario_table2
    ["COL1"%string; "COL1"%string] ["col1"%string; "col1"%string]
    [KInt 0; KInt 1] [KInt 0; KInt 1].
Proof. concrete_valid. Defined.

Lemma compare_column_values_repeated_pair_witness :
  exists d,
    compare_column_values scenario_table1 scenario_table2
      (PList ["COL1"%string; "COL1"%string])
      (PList ["col1"%string; "col1"%string]) PNone PNone = Ok d /\
    (length (dict_keys d) < 2)%nat.
Proof.
  destruct (compare_column_values_repeated_pair scenario_table1 scenario_table2
              ["COL1"%string; "COL1"%string] ["col1"%string; "col1"%string]
              PNone PNone 0%nat 1%nat "COL1"%string "col1"%string)
    as (d & l & Hrun & _ & _ & _ & _ & _ & Hlen).
  - left. split; reflexivity.
  - exact repeated_valid.
  - discriminate.
  - reflexivity.
  - reflexivity.
  - reflexivity.
  - reflexivity.
  - exists d. split; [exact Hrun | exact Hlen].
Defined.

Lemma collision_after_repeat_valid :
  valid_comparison collision_table1 collision_table2
    ["a"%string; "a"%string; "a [vs] b"%string]
    ["b [vs] c"%string; "b [vs] c"%string; "c"%string]
    [KInt 0] [KInt 0].
Proof. concrete_valid. Defined.

(** A pair of names at positions 0 and 1 and, at position 2, another
    pair with the same label: the entry is the list of position 2, not
    the list of the later of the two positions of the pair. *)
Lemma compare_column_values_repeat_then_collision :
  exists d,
    compare_column_values collision_table1 collision_table2
      (PList ["a"%string; "a"%string; "a [vs] b"%string])
      (PList ["b [vs] c"%string; "b [vs] c"%string; "c"%string])
      PNone PNone = Ok d /\
    ~ (exists l,
         dict_get (format_vs "a"%string "b [vs] c"%string) d = Some l /\
         is_diff collision_table1 collision_table2 "a"%string "b [vs] c"%string
           [KInt 0] [KInt 0] l).
Proof.
  eexists. split; [reflexivity|].
  intros (l & Hget & _ & Hl).
  vm_compute in Hget. injection Hget as <-.
  destruct (Hl 0%nat (KInt 0) (KInt 0) eq_refl eq_refl) as (v1 & v2 & Hv1 & Hv2 & Hj).
  vm_compute in Hv1, Hv2. injection Hv1 as <-. injection Hv2 as <-.
  vm_compute in Hj. discriminate.
Qed.

(** One row list supplied and the other omitted (C8): no [ValueError].
    The loop runs into [rows2[0]] or [len(rows1)] on [None] and raises
    [TypeError]; with an empty [rows1] it returns a dictionary of empty
    lists. *)
Theorem compare_column_values_one_row_list :
  compare_column_values scenario_table1 scenario_table2
    (PList ["COL1"%string]) (PList ["col1"%string]) (PList [KInt 0]) PNone
  = Raise TypeError /\
  compare_column_values scenario_table1 scenario_table2
    (PList ["COL1"%string]) (PList ["col1"%string]) PNone (PList [KInt 0])
  = Raise TypeError /\
  compare_column_values scenario_table1 scenario_table2
    (PList ["COL1"%string]) (PList ["col1"%string]) (PList []) PNone
  = Ok [("COL1 [vs] col1"%string, [])].
Proof. repeat split. Qed.

Lemma for_each_Raise {S} (body : nat -> S -> res S) (l : list nat) (s : S) e :
  for_each body l s = Raise e -> exists i s', body i s' = Raise e.
Proof.
  revert s. induction l as [|i l IH]; intros s; simpl; [discriminate|].
  destruct (body i s) as [s'|e'] eqn:Hbody; simpl.
  - apply IH.
  - intros [= ->]. eauto.
Qed.

Lemma getitem_not_ValueError {A} `{Countable A} (x : pyobj A) i :
  getitem x i <> Raise ValueError.
Proof. destruct x as [|l|s]; simpl; try discriminate. by destruct (l !! i). Qed.

Lemma diff_at_not_ValueError t1 t2 columns1 columns2 rows1 rows2 i j :
  diff_at t1 t2 columns1 columns2 rows1 rows2 i j <> Raise ValueError.
Proof.
  unfold diff_at, df_at.
  repeat match goal with
         | |- context [getitem ?x ?n] =>
             let Hg := fresh in
             pose proof (getitem_not_ValueError x n) as Hg;
             destruct (getitem x n) as [?|[]]; simpl; try discriminate; try congruence;
             clear Hg
         | |- context [df_cell ?t ?r ?c] =>
             destruct (df_cell t r c); simpl; try discriminate
         end.
Qed.

Lemma compare_body_not_ValueError t1 t2 columns1 columns2 rows1 rows2 i d :
  compare_body t1 t2 columns1 columns2 rows1 rows2 i d <> Raise ValueError.
Proof.
  unfold compare_body.
  destruct (len rows1) as [n|e] eqn:Hn; simpl.
  - destruct (mapM _ (seq 0 n)) as [diff|e] eqn:Hdiff; simpl.
    + pose proof (getitem_not_ValueError columns1 i).
      destruct (getitem columns1 i) as [c1|e]; simpl; [|congruence].
      pose proof (getitem_not_ValueError columns2 i).
      destruct (getitem columns2 i) as [c2|e]; simpl; [discriminate|congruence].
    + intros [= ->]. apply mapM_res_Raise in Hdiff as (_ & j & _ & _ & _ & Hj).
      by apply diff_at_not_ValueError in Hj.
  - destruct rows1; simpl in Hn; congruence.
Qed.

(** In general: when the columns are comparable and exactly one of the
    row arguments is [None], the call never raises [ValueError]. *)
Lemma compare_column_values_one_None t1 t2 columns1 columns2 rows1 rows2 :
  can_compare columns1 columns2 = Ok true ->
  is_not_None rows1 <> is_not_None rows2 ->
  compare_column_values t1 t2 columns1 columns2 rows1 rows2 <> Raise ValueError.
Proof.
  intros Hcc Hone. unfold compare_column_values, recursion_limit.
  cbn [compare_column_values_rec]. rewrite Hcc. cbn [mbind res_bind negb].
  assert (is_not_None rows1 && is_not_None rows2 = false) as ->
    by (destruct rows1, rows2; simpl in *; congruence).
  assert (negb (is_not_None rows1) && negb (is_not_None rows2) = false) as ->
    by (destruct rows1, rows2; simpl in *; congruence).
  cbn [mbind res_bind].
  destruct (len columns1) as [n|e] eqn:Hn; simpl.
  - intros (i & d & Hbody)%for_each_Raise.
    by apply compare_body_not_ValueError in Hbody.
  - destruct columns1; simpl in Hn; congruence.
Qed.

(** ** Binary64 arithmetic *)

Lemma iter_pos_iter {A} (f : A -> A) n x :
  SpecFloat.iter_pos f n x = Pos.iter f x n.
Proof.
  revert x. induction n as [n IH|n IH|]; intros x; simpl.
  - rewrite !IH, !Pos.iter_swap. reflexivity.
  - rewrite !IH. reflexivity.
  - reflexivity.
Qed.

Lemma digits2_pos_iter_xO p k :
  digits2_pos (Pos.iter xO p k) = (digits2_pos p + k)%positive.
Proof.
  induction k as [|k IH] using Pos.peano_ind.
  - simpl. lia.
  - rewrite Pos.iter_succ. simpl. rewrite IH. lia.
Qed.

Lemma Zpos_iter_xO p k : Z.pos (Pos.iter xO p k) = Z.pos p * 2 ^ Z.pos k.
Proof.
  induction k as [|k IH] using Pos.peano_ind.
  - simpl. lia.
  - rewrite Pos.iter_succ, Pos2Z.inj_xO, IH, Pos2Z.inj_succ, Z.pow_succ_r by lia.
    lia.
Qed.

Lemma digits2_pos_lower p : 2 ^ (Z.pos (digits2_pos p) - 1) <= Z.pos p.
Proof.
  induction p as [p IH|p IH|]; simpl digits2_pos.
  - rewrite Pos2Z.inj_succ.
    replace (Z.succ (Z.pos (digits2_pos p)) - 1)
      with (Z.succ (Z.pos (digits2_pos p) - 1)) by lia.
    rewrite Z.pow_succ_r by lia. lia.
  - rewrite Pos2Z.inj_succ.
    replace (Z.succ (Z.pos (digits2_pos p)) - 1)
      with (Z.succ (Z.pos (digits2_pos p) - 1)) by lia.
    rewrite Z.pow_succ_r by lia. lia.
  - simpl. lia.
Qed.

Lemma digits2_pos_le_53 p : Z.pos p < 2 ^ 53 -> Z.pos (digits2_pos p) <= 53.
Proof.
  intros Hp. pose proof (digits2_pos_lower p) as Hlow.
  destruct (Z_le_gt_dec (Z.pos (digits2_pos p)) 53) as [|Hgt]; [assumption|].
  assert (2 ^ 53 <= 2 ^ (Z.pos (digits2_pos p) - 1))
    by (apply Z.pow_le_mono_r; lia).
  lia.
Qed.

(** A mantissa of 53 bits with an exponent in range is already
    rounded. *)
Lemma binary_round_aux_canonical s m e :
  Z.pos (digits2_pos m) = 53 -> -1074 <= e <= 971 ->
  binary_round_aux prec emax s (Z.pos m) e loc_Exact = S754_finite s m e.
Proof.
  intros Hd He. unfold binary_round_aux, shr_fexp, Zdigits2.
  simpl shr_record_of_loc. rewrite Hd.
  assert (fexp prec emax (53 + e) - e = 0) as ->
    by (unfold fexp, emin, prec, emax; lia).
  simpl. rewrite Hd.
  assert (fexp prec emax (53 + e) - e = 0) as ->
    by (unfold fexp, emin, prec, emax; lia).
  simpl. unfold emax, prec.
  destruct (Z.leb_spec e (1024 - 53)); [reflexivity | lia].
Qed.

(** [float(n)] is exact below [2^53]. *)
Lemma float_of_int_exact n :
  0 < n < 2 ^ 53 ->
  exists m e, float_of_int n = Ok (S754_finite false m e) /\
    Z.pos (digits2_pos m) = 53 /\ -52 <= e <= 0 /\ Z.pos m = n * 2 ^ (- e).
Proof.
  intros [Hpos Hlt]. destruct n as [|p|p]; try lia.
  pose proof (digits2_pos_le_53 p Hlt) as Hd.
  unfold float_of_int, binary_normalize, binary_round, shl_align.
  assert (fexp prec emax (Z.pos (digits2_pos p) + 0) - 0
          = Z.pos (digits2_pos p) - 53) as ->
    by (unfold fexp, emin, prec, emax; lia).
  destruct (Z.pos (digits2_pos p) - 53) as [|k|k] eqn:Hk; try lia.
  - rewrite binary_round_aux_canonical by lia.
    exists p, 0. repeat split; try lia.
  - assert (fexp prec emax (Z.pos (digits2_pos p) + 0) = Z.neg k) as ->
      by (unfold fexp, emin, prec, emax; lia).
    rewrite binary_round_aux_canonical.
    + exists (Pos.iter xO p k), (Z.neg k). split; [reflexivity|].
      rewrite digits2_pos_iter_xO, Zpos_iter_xO. repeat split; try lia.
    + rewrite digits2_pos_iter_xO. lia.
    + lia.
Qed.

Lemma iter_shr_1_xO m k :
  SpecFloat.iter_pos shr_1 k
    {| shr_m := Z.pos (Pos.iter xO m k); shr_r := false; shr_s := false |}
  = {| shr_m := Z.pos m; shr_r := false; shr_s := false |}.
Proof.
  rewrite iter_pos_iter. induction k as [|k IH] using Pos.peano_ind.
  - reflexivity.
  - rewrite Pos.iter_succ_r. rewrite (Pos.iter_succ k _ xO). exact IH.
Qed.

(** [x * 1.0] is [x]. *)
Lemma SFmul_one m e :
  Z.pos (digits2_pos m) = 53 -> -1022 <= e <= 971 ->
  SFmul prec emax (S754_finite false m e) float_one = S754_finite false m e.
Proof.
  intros Hd He. unfold SFmul, float_one.
  assert ((m * 4503599627370496)%positive = Pos.iter xO m 52) as ->.
  { apply Pos2Z.inj. rewrite Zpos_iter_xO. rewrite Pos2Z.inj_mul. reflexivity. }
  unfold binary_round_aux at 1. unfold shr_fexp at 1. unfold Zdigits2.
  rewrite digits2_pos_iter_xO, Pos2Z.inj_add, Hd. cbn [shr_record_of_loc].
  assert (fexp prec emax (53 + 52 + (e + -52)) - (e + -52) = 52) as ->
    by (unfold fexp, emin, prec, emax; lia).
  unfold shr. rewrite iter_shr_1_xO.
  cbn [shr_m loc_of_shr_record round_nearest_even].
  replace (e + -52 + 52) with e by lia.
  unfold shr_fexp, Zdigits2. rewrite Hd. simpl shr_record_of_loc.
  assert (fexp prec emax (53 + e) - e = 0) as ->
    by (unfold fexp, emin, prec, emax; lia).
  simpl. unfold emax, prec.
  destruct (Z.leb_spec e (1024 - 53)); [reflexivity | lia].
Qed.

(** [int > float] compares the exact values. *)
Lemma Qpower_2_nonneg e : 0 <= e -> (2 ^ e == inject_Z (2 ^ e))%Q.
Proof. intros He. rewrite Zpower_Qpower by exact He. reflexivity. Qed.

Lemma Qpower_2_neg e : e < 0 -> (2 ^ e == / inject_Z (2 ^ (- e)))%Q.
Proof.
  intros He. destruct e as [|k|k]; try lia.
  change (- Z.neg k) with (Z.pos k).
  rewrite Zpower_Qpower by lia. reflexivity.
Qed.

Lemma int_gt_float_exact c f q :
  float_to_Q f = Some q ->
  int_gt_float c f = true <-> (q < inject_Z c)%Q.
Proof.
  destruct f as [s|s| |s m e]; simpl; try discriminate.
  - intros [= <-]. rewrite Z.ltb_lt. rewrite (Zlt_Qlt 0 c). reflexivity.
  - intros [= <-]. fold (signed s m). destruct (Z.leb_spec 0 e) as [He|He].
    + rewrite Z.ltb_lt, Qpower_2_nonneg by exact He.
      rewrite <- inject_Z_mult, <- Zlt_Qlt. reflexivity.
    + rewrite Z.ltb_lt, Qpower_2_neg by exact He.
      assert (0 < 2 ^ (- e)) as Hpow by (apply Z.pow_pos_nonneg; lia).
      assert (0 < inject_Z (2 ^ (- e)))%Q as HposQ
        by (rewrite <- (Zlt_Qlt 0); exact Hpow).
      rewrite <- (Qmult_lt_r _ _ _ HposQ).
      rewrite <- Qmult_assoc, (Qmult_comm (/ _)), Qmult_inv_r.
      * rewrite Qmult_1_r, <- inject_Z_mult, <- Zlt_Qlt. reflexivity.
      * intros Hz. rewrite Hz in HposQ. by apply Qlt_irrefl in HposQ.
Qed.

Lemma int_gt_exact c x q :
  number_to_Q x = Some q -> int_gt c x = true <-> (q < inject_Z c)%Q.
Proof.
  destruct x as [z|f]; simpl.
  - intros [= <-]. rewrite Z.ltb_lt, (Zlt_Qlt z c). reflexivity.
  - apply int_gt_float_exact.
Qed.

(** ** Geometry checks *)

Lemma count_True_map (p : geometry -> bool) (g : list geometry) :
  count_True (map p g) = count_rows p g.
Proof.
  unfold count_rows. induction g as [|x g IH]; simpl; [reflexivity|].
  rewrite filter_cons. destruct (p x) eqn:Hp.
  - rewrite decide_True by reflexivity. simpl. by rewrite IH.
  - rewrite decide_False by discriminate. exact IH.
Qed.

Lemma count_rows_le (p : geometry -> bool) (g : list geometry) :
  (count_rows p g <= length g)%nat.
Proof. apply length_filter. Qed.

Lemma count_rows_pos (p : geometry -> bool) (g : list geometry) :
  (0 < count_rows p g)%nat <-> exists x, x ∈ g /\ p x = true.
Proof.
  unfold count_rows. split.
  - destruct (filter _ g) as [|x l] eqn:Hf; simpl; [lia|]. intros _.
    assert (x ∈ filter (fun x => p x = true) g) as Hx
      by (rewrite Hf; apply elem_of_cons; auto).
    apply list_elem_of_filter in Hx as [Hp Hx]. eauto.
  - intros (x & Hx & Hp).
    assert (x ∈ filter (fun x => p x = true) g) as Hin
      by (apply list_elem_of_filter; auto).
    destruct (filter _ g); [by apply elem_of_nil in Hin | simpl; lia].
Qed.

Lemma float_of_int_small n :
  0 <= n < 2 ^ 53 ->
  (n = 0 /\ float_of_int n = Ok (S754_zero false)) \/
  (exists m e, float_of_int n = Ok (S754_finite false m e) /\
     Z.pos (digits2_pos m) = 53 /\ -52 <= e <= 0 /\ Z.pos m = n * 2 ^ (- e)).
Proof.
  intros [Hn Hlt]. destruct (decide (n = 0)) as [->|Hne].
  - left. split; reflexivity.
  - right. apply float_of_int_exact. lia.
Qed.

Section ThresholdCheck.
Variable run : GeoDataFrame -> number -> res bool.
Variable p : geometry -> bool.
Hypothesis run_eq : forall gdf g t,
  gdf_geometry gdf = Some g ->
  run gdf t =
  (bound ← int_mul (Z.of_nat (length g)) t;
   Ok (int_gt (Z.of_nat (count_True (map p g))) bound)).

Variable gdf : GeoDataFrame.
Variable g : list geometry.
Hypothesis Hg : gdf_geometry gdf = Some g.
Hypothesis Hrows : Z.of_nat (length g) < 2 ^ 53.

Let n := Z.of_nat (length g).
Let c := Z.of_nat (count_rows p g).

Lemma run_unfold t :
  run gdf t = (bound ← int_mul n t; Ok (int_gt c bound)).
Proof. unfold n, c. rewrite <- count_True_map. by apply run_eq. Qed.

Lemma count_le_rows : 0 <= c <= n.
Proof. unfold c, n. pose proof (count_rows_le p g). lia. Qed.

Lemma run_returns t :
  exists bound b, int_mul n t = Ok bound /\ run gdf t = Ok b /\
    forall q, number_to_Q bound = Some q -> (b = true <-> (q < inject_Z c)%Q).
Proof.
  rewrite run_unfold. destruct t as [z|f]; simpl.
  - eexists _, _. split; [reflexivity|]. split; [reflexivity|].
    intros q Hq. by apply (int_gt_exact c (PInt (n * z))).
  - destruct (float_of_int_small n) as [[_ ->]|(m & e & -> & _)];
      [unfold n; lia| |]; simpl;
      (eexists _, _; split; [reflexivity|]; split; [reflexivity|]);
      intros q Hq; by apply (int_gt_exact c (PFloat _)).
Qed.

Lemma run_int z : exists b, run gdf (PInt z) = Ok b /\ (b = true <-> z * n < c).
Proof.
  rewrite run_unfold. simpl. eexists. split; [reflexivity|].
  rewrite Z.ltb_lt. lia.
Qed.

Lemma run_zero t :
  t = PInt 0 \/ (exists s, t = PFloat (S754_zero s)) ->
  exists b, run gdf t = Ok b /\ (b = true <-> exists x, x ∈ g /\ p x = true).
Proof.
  rewrite run_unfold. intros [->|[s ->]]; simpl.
  - eexists. split; [reflexivity|].
    rewrite <- count_rows_pos, Z.ltb_lt. unfold c. lia.
  - destruct (float_of_int_small n) as [[_ ->]|(m & e & -> & _)];
      [unfold n; lia| |]; simpl;
      (eexists; split; [reflexivity|]);
      rewrite <- count_rows_pos, Z.ltb_lt; unfold c; lia.
Qed.

Lemma run_one t : t = PInt 1 \/ t = PFloat float_one -> run gdf t = Ok false.
Proof.
  pose proof count_le_rows as Hc.
  rewrite run_unfold. intros [->| ->]; simpl.
  - f_equal. apply Z.ltb_ge. lia.
  - destruct (float_of_int_small n) as [[Hn ->]|(m & e & -> & Hd & He & Hm)];
      [unfold n; lia| |]; cbn [mbind res_bind].
    + simpl. f_equal. apply Z.ltb_ge. lia.
    + rewrite SFmul_one by (try exact Hd; lia). simpl. f_equal.
      assert (0 < 2 ^ (- e)) as Hpow by (apply Z.pow_pos_nonneg; lia).
      destruct (Z.leb_spec 0 e).
      * assert (e = 0) as -> by lia. apply Z.ltb_ge. simpl in Hm. lia.
      * apply Z.ltb_ge. rewrite Hm. nia.
Qed.

Lemma threshold_check_holds : threshold_check (run gdf) p g.
Proof.
  split; [exact run_returns|]. split; [exact run_int|].
  split; [exact run_zero | exact run_one].
Qed.
End ThresholdCheck.

Lemma has_missing_geometries_eq gdf g t :
  gdf_geometry gdf = Some g ->
  has_missing_geometries gdf (Some t) =
  (bound ← int_mul (Z.of_nat (length g)) t;
   Ok (int_gt (Z.of_nat (count_True (map isna g))) bound)).
Proof.
  intros Hg. unfold has_missing_geometries, gdf_getitem_geometry.
  rewrite Hg. reflexivity.
Qed.

Lemma has_empty_geometries_eq gdf g t :
  gdf_geometry gdf = Some g ->
  has_empty_geometries gdf (Some t) =
  (bound ← int_mul (Z.of_nat (length g)) t;
   Ok (int_gt (Z.of_nat (count_True (map is_empty g))) bound)).
Proof.
  intros Hg. unfold has_empty_geometries, gdf_getitem_geometry.
  rewrite Hg. reflexivity.
Qed.

(** C4 (amended). For a geo-table with a geometry column of fewer than
    [2^53] rows and every threshold that is a number,
    [has_missing_geometries]
    (respectively [has_empty_geometries]) returns, without raising, the
    comparison of the number of rows whose geometry is missing
    (respectively empty) with the product of the number of rows and the
    threshold as Python computes it: exact for an [int] threshold,
    rounded to the nearest binary64 number for a [float] one. At
    threshold 0 it is true exactly when some such row exists, and at
    threshold 1 it is false. *)
Theorem geometry_checks_threshold (gdf : GeoDataFrame) (g : list geometry) :
  gdf_geometry gdf = Some g ->
  Z.of_nat (length g) < 2 ^ 53 ->
  threshold_check (fun t => has_missing_geometries gdf (Some t)) isna g /\
  threshold_check (fun t => has_empty_geometries gdf (Some t)) is_empty g.
Proof.
  intros Hg Hrows. split.
  - by apply (threshold_check_holds
                (fun gdf t => has_missing_geometries gdf (Some t)) isna
                has_missing_geometries_eq).
  - by apply (threshold_check_holds
                (fun gdf t => has_empty_geometries gdf (Some t)) is_empty
                has_empty_geometries_eq).
Qed.

Lemma geometry_checks_threshold_witness :
  has_missing_geometries doc_gdf (Some (PFloat (S754_zero false))) = Ok true /\
  has_missing_geometries doc_gdf (Some (PFloat float_one)) = Ok false /\
  has_missing_geometries doc_gdf (Some (PFloat float_0_75)) = Ok false.
Proof.
  destruct (geometry_checks_threshold doc_gdf
              [GNone; GShape false; GShape false] eq_refl)
    as [(_ & _ & _ & Hone) _].
  - simpl. lia.
  - split; [reflexivity|]. split; [|reflexivity].
    apply (Hone (PFloat float_one)). right. reflexivity.
Defined.

(** With the float nearest to 0.7, 10 rows and 7 missing geometries the
    product [10 * 0.7] rounds up to [7.0], so the check is false although
    7 exceeds the exact product; from [2^53 + 1] rows on, [float(n)] can
    round below the number of rows, so the check can be true at
    threshold 1. *)
Lemma has_missing_geometries_rounding :
  (exists g q,
     gdf_geometry seven_of_ten_gdf = Some g /\
     number_to_Q (PFloat float_0_7) = Some q /\
     (0 <= q)%Q /\ (q <= 1)%Q /\
     (q * inject_Z (Z.of_nat (length g))
      < inject_Z (Z.of_nat (count_rows isna g)))%Q /\
     has_missing_geometries seven_of_ten_gdf (Some (PFloat float_0_7))
     = Ok false) /\
  has_missing_geometries huge_gdf (Some (PFloat float_one)) = Ok true.
Proof.
  split.
  - eexists _, _. split; [reflexivity|]. split; [reflexivity|].
    repeat split; try reflexivity; discriminate.
  - rewrite (has_missing_geometries_eq huge_gdf _ _ eq_refl).
    rewrite count_True_map.
    assert (count_rows isna (repeat GNone (Z.to_nat (2 ^ 53 + 1)))
            = Z.to_nat (2 ^ 53 + 1)) as ->.
    { unfold count_rows. generalize (Z.to_nat (2 ^ 53 + 1)). intros k.
      induction k as [|k IH]; [reflexivity|].
      cbn [repeat]. rewrite filter_cons, decide_True by reflexivity.
      simpl. by rewrite IH. }
    rewrite repeat_length, Z2Nat.id by lia.
    reflexivity.
Qed.

(** C10. For a geo-table with a geometry column and no rows,
    [has_missing_geometries] and [has_empty_geometries] return false
    for every threshold that is a number, in particular for every
    threshold at least 0:
    the count 0 is not greater than [0 * threshold], which is 0, or NaN
    for an infinite or NaN threshold. *)
Theorem geometry_checks_no_rows (gdf : GeoDataFrame) (threshold : number) :
  gdf_geometry gdf = Some [] ->
  has_missing_geometries gdf (Some threshold) = Ok false /\
  has_empty_geometries gdf (Some threshold) = Ok false.
Proof.
  intros Hg.
  rewrite (has_missing_geometries_eq gdf [] threshold Hg).
  rewrite (has_empty_geometries_eq gdf [] threshold Hg).
  destruct threshold as [z|[s|s| |s m e]]; split; reflexivity.
Qed.

Lemma geometry_checks_no_rows_witness :
  has_missing_geometries empty_gdf (Some (PFloat float_0_75)) = Ok false /\
  has_empty_geometries empty_gdf (Some (PInt 0)) = Ok false.
Proof.
  split.
  - apply (geometry_checks_no_rows empty_gdf (PFloat float_0_75) eq_refl).
  - apply (geometry_checks_no_rows empty_gdf (PInt 0) eq_refl).
Defined.

(** * Further properties *)

(** ** Validation of the arguments *)

Lemma can_compare_alignable {A} `{Countable A} (xs ys : pyobj A) :
  can_compare xs ys = Ok true <-> alignable xs ys.
Proof.
  rewrite can_compare_true. unfold alignable.
  split; [tauto|]. intros (? & ? & ? & ? & Heq).
  repeat split; try assumption. by rewrite <- Heq.
Qed.

Lemma can_compare_not_alignable {A} `{Countable A} (xs ys : pyobj A) :
  can_compare xs ys = Ok false <-> ~ alignable xs ys.
Proof.
  rewrite <- can_compare_alignable.
  destruct (can_compare_never_raises xs ys) as [[|] ->]; split; congruence.
Qed.

(** X9. [__can_compare] does not depend on the order of its two
    arguments. *)
Theorem can_compare_symmetric :
  forall (A : Type) (EqA : EqDecision A) (CountA : Countable A) (xs ys : pyobj A),
    can_compare xs ys = can_compare ys xs.
Proof.
  intros A EqA CountA xs ys.
  assert (alignable xs ys <-> alignable ys xs) as Hsym.
  { unfold alignable. split; intros (? & ? & Ht & Hpos & Heq);
      repeat split; try assumption; try (by symmetry); by rewrite <- Heq. }
  destruct (can_compare_never_raises xs ys) as [[|] Hxy];
    destruct (can_compare_never_raises ys xs) as [[|] Hyx];
    rewrite Hxy, Hyx; try reflexivity.
  - apply can_compare_alignable, Hsym, can_compare_alignable in Hxy. congruence.
  - apply can_compare_alignable, Hsym, can_compare_alignable in Hyx. congruence.
Qed.

(** The call with both row arguments supplied, past the check of the
    columns. *)
Lemma compare_column_values_supplied t1 t2 columns1 columns2 rows1 rows2 :
  can_compare columns1 columns2 = Ok true ->
  is_not_None rows1 = true -> is_not_None rows2 = true ->
  compare_column_values t1 t2 columns1 columns2 rows1 rows2 =
  (ok ← can_compare rows1 rows2;
   if negb ok then Raise ValueError
   else n ← len columns1;
        for_each (compare_body t1 t2 columns1 columns2 rows1 rows2) (seq 0 n) []).
Proof.
  intros Hcc H1 H2. unfold compare_column_values, recursion_limit.
  cbn [compare_column_values_rec]. rewrite Hcc, H1, H2.
  cbn [mbind res_bind negb andb].
  destruct (can_compare rows1 rows2) as [[|]|e]; reflexivity.
Qed.

Lemma compare_column_values_columns_rejected t1 t2 columns1 columns2 rows1 rows2 :
  ~ alignable columns1 columns2 ->
  compare_column_values t1 t2 columns1 columns2 rows1 rows2 = Raise ValueError.
Proof.
  intros Hcc%can_compare_not_alignable.
  unfold compare_column_values, recursion_limit.
  cbn [compare_column_values_rec]. by rewrite Hcc.
Qed.

Lemma compare_loop_not_ValueError t1 t2 columns1 columns2 rows1 rows2 :
  (n ← len columns1;
   for_each (compare_body t1 t2 columns1 columns2 rows1 rows2) (seq 0 n) [])
  <> Raise ValueError.
Proof.
  destruct (len columns1) as [n|e] eqn:Hn; simpl.
  - intros (i & d & Hbody)%for_each_Raise.
    by apply compare_body_not_ValueError in Hbody.
  - destruct columns1; simpl in Hn; congruence.
Qed.

(** X1. [compare_column_values] raises [ValueError] exactly when the
    column arguments cannot be aligned, or the row arguments are both
    given and cannot be aligned, or both are omitted and the indexes of
    the two tables cannot be aligned (one is empty or they differ in
    length). *)
Theorem compare_column_values_ValueError_iff (t1 t2 : DataFrame)
    (columns1 columns2 : pyobj string) (rows1 rows2 : pyobj key) :
  compare_column_values t1 t2 columns1 columns2 rows1 rows2 = Raise ValueError <->
  ~ alignable columns1 columns2 \/
  (rows1 = PNone /\ rows2 = PNone /\
   ~ alignable (PList (df_index t1)) (PList (df_index t2))) \/
  (rows1 <> PNone /\ rows2 <> PNone /\ ~ alignable rows1 rows2).
Proof.
  destruct (can_compare_never_raises columns1 columns2) as [[|] Hcc].
  - assert (alignable columns1 columns2) as Hal by by apply can_compare_alignable.
    assert (forall r1 r2 : pyobj key,
              is_not_None r1 = true -> is_not_None r2 = true ->
              compare_column_values t1 t2 columns1 columns2 r1 r2 = Raise ValueError
              <-> ~ alignable r1 r2) as Hsup.
    { intros r1 r2 H1 H2.
      rewrite (compare_column_values_supplied _ _ _ _ _ _ Hcc H1 H2).
      rewrite <- can_compare_not_alignable.
      destruct (can_compare_never_raises r1 r2) as [[|] ->]; simpl.
      - split; [|discriminate]. intros Hloop.
        by apply compare_loop_not_ValueError in Hloop.
      - split; reflexivity. }
    destruct (is_not_None rows1) eqn:H1, (is_not_None rows2) eqn:H2.
    + rewrite (Hsup rows1 rows2 H1 H2).
      split; [|intros [?|[(-> & _)|(_ & _ & ?)]];
                 [tauto | simpl in H1; discriminate | assumption]].
      intros Hrows. right. right.
      split; [destruct rows1; simpl in H1; congruence|].
      split; [destruct rows2; simpl in H2; congruence|].
      exact Hrows.
    + split.
      * intros Hrun. exfalso. revert Hrun.
        apply compare_column_values_one_None; [exact Hcc | congruence].
      * intros [?|[(-> & _)|(_ & ? & _)]]; [tauto | simpl in H1; discriminate |].
        destruct rows2; simpl in H2; congruence.
    + split.
      * intros Hrun. exfalso. revert Hrun.
        apply compare_column_values_one_None; [exact Hcc | congruence].
      * intros [?|[(_ & -> & _)|(? & _)]]; [tauto | simpl in H2; discriminate |].
        destruct rows1; simpl in H1; congruence.
    + destruct rows1; try discriminate. destruct rows2; try discriminate.
      rewrite compare_column_values_omitted.
      rewrite (Hsup (PList (df_index t1)) (PList (df_index t2)) eq_refl eq_refl).
      split; [tauto|]. intros [?|[(_ & _ & ?)|(? & _)]]; tauto.
  - assert (~ alignable columns1 columns2) as Hal
      by by apply can_compare_not_alignable.
    rewrite (compare_column_values_columns_rejected _ _ _ _ _ _ Hal). tauto.
Qed.

(** X2. With both row arguments omitted, tables that have no rows, or
    that differ in their number of rows, are rejected with [ValueError],
    also a table without rows compared with itself. *)
Theorem compare_column_values_unequal_indexes (t1 t2 : DataFrame)
    (columns1 columns2 : pyobj string) :
  df_index t1 = [] \/ length (df_index t1) <> length (df_index t2) ->
  compare_column_values t1 t2 columns1 columns2 PNone PNone = Raise ValueError.
Proof.
  intros Hidx.
  destruct (can_compare_never_raises columns1 columns2) as [[|] Hcc].
  - rewrite compare_column_values_omitted.
    rewrite (compare_column_values_supplied _ _ _ _
               (PList (df_index t1)) (PList (df_index t2)) Hcc eq_refl eq_refl).
    rewrite can_compare_lists, bool_decide_eq_false_2; [reflexivity|].
    intros [Hne Hlen]. destruct Hidx; congruence.
  - apply compare_column_values_columns_rejected.
    by apply can_compare_not_alignable.
Qed.

Lemma compare_column_values_unequal_indexes_witness :
  compare_column_values no_rows_table no_rows_table
    (PList ["COL1"%string]) (PList ["COL1"%string]) PNone PNone
  = Raise ValueError.
Proof.
  apply (compare_column_values_unequal_indexes no_rows_table no_rows_table).
  left. reflexivity.
Defined.

(** ** The exceptions of [compare_column_values] *)

Lemma getitem_in_range {A} `{Countable A} (x : pyobj A) i e :
  in_range x i -> getitem x i = Raise e -> e = TypeError.
Proof.
  destruct x as [|l|s]; simpl; try (intros _ [= <-]; reflexivity).
  intros Hi. destruct (lookup_lt_is_Some_2 l i Hi) as [a ->]. discriminate.
Qed.

Lemma alignable_in_range {A} `{Countable A} (xs ys : pyobj A) i :
  alignable xs ys -> (i < cardinal xs)%nat -> in_range xs i /\ in_range ys i.
Proof.
  intros (_ & _ & Ht & _ & Heq) Hi.
  destruct xs as [|l|s], ys as [|k|s']; simpl in *; try discriminate; try tauto.
  unfold cardinal in *. simpl in *. lia.
Qed.

Lemma len_cardinal {A} `{Countable A} (x : pyobj A) n :
  len x = Ok n -> n = cardinal x.
Proof. destruct x; simpl; [discriminate| |]; intros [= <-]; reflexivity. Qed.

Lemma len_Raise {A} `{Countable A} (x : pyobj A) e :
  len x = Raise e -> e = TypeError.
Proof. destruct x; simpl; [|discriminate..]. intros [= <-]. reflexivity. Qed.

Section Exceptions.
Variables t1 t2 : DataFrame.
Variables columns1 columns2 : pyobj string.
Variables rows1 rows2 : pyobj key.

Lemma diff_at_Raise i j e :
  in_range columns1 i -> in_range columns2 i ->
  in_range rows1 j -> in_range rows2 j ->
  diff_at t1 t2 columns1 columns2 rows1 rows2 i j = Raise e ->
  e = TypeError \/ e = KeyError.
Proof.
  intros Hc1 Hc2 Hr1 Hr2. unfold diff_at, df_at.
  destruct (getitem rows1 j) as [r1|e1] eqn:H1; simpl;
    [|intros [= <-]; left; by apply (getitem_in_range rows1 j)].
  destruct (getitem rows2 j) as [r2|e2] eqn:H2; simpl;
    [|intros [= <-]; left; by apply (getitem_in_range rows2 j)].
  destruct (getitem columns1 i) as [c1|e3] eqn:H3; simpl;
    [|intros [= <-]; left; by apply (getitem_in_range columns1 i)].
  destruct (df_cell t1 r1 c1); simpl; [|intros [= <-]; by right].
  destruct (getitem columns2 i) as [c2|e4] eqn:H4; simpl;
    [|intros [= <-]; left; by apply (getitem_in_range columns2 i)].
  destruct (df_cell t2 r2 c2); simpl; [discriminate|intros [= <-]; by right].
Qed.

Lemma compare_body_Raise i d e :
  in_range columns1 i -> in_range columns2 i ->
  (forall j, (j < cardinal rows1)%nat -> in_range rows1 j /\ in_range rows2 j) ->
  compare_body t1 t2 columns1 columns2 rows1 rows2 i d = Raise e ->
  e = TypeError \/ e = KeyError.
Proof.
  intros Hc1 Hc2 Hrows. unfold compare_body.
  destruct (len rows1) as [n|e1] eqn:Hn; simpl;
    [|intros [= <-]; left; by apply (len_Raise rows1)].
  apply len_cardinal in Hn as ->.
  destruct (mapM _ (seq 0 (cardinal rows1))) as [diff|e2] eqn:Hdiff; simpl.
  - destruct (getitem columns1 i) as [c1|e3] eqn:H3; simpl;
      [|intros [= <-]; left; by apply (getitem_in_range columns1 i)].
    destruct (getitem columns2 i) as [c2|e4] eqn:H4; simpl;
      [discriminate|intros [= <-]; left; by apply (getitem_in_range columns2 i)].
  - intros [= <-].
    apply mapM_res_Raise in Hdiff as (l1 & j & l2 & Hseq & _ & Hj).
    assert (j ∈ seq 0 (cardinal rows1)) as Hin
      by (rewrite Hseq; apply elem_of_app; right; apply elem_of_cons; auto).
    apply elem_of_seq in Hin. destruct (Hrows j) as [Hr1 Hr2]; [lia|].
    by apply (diff_at_Raise i j).
Qed.

Lemma compare_loop_Raise e :
  alignable columns1 columns2 ->
  (forall j, (j < cardinal rows1)%nat -> in_range rows1 j /\ in_range rows2 j) ->
  (n ← len columns1;
   for_each (compare_body t1 t2 columns1 columns2 rows1 rows2) (seq 0 n) [])
  = Raise e ->
  e = TypeError \/ e = KeyError.
Proof.
  intros Hal Hrows.
  destruct (len columns1) as [n|e1] eqn:Hn; simpl;
    [|intros [= <-]; left; by apply (len_Raise columns1)].
  apply len_cardinal in Hn as ->.
  assert (forall (l : list nat) d,
            (forall i, i ∈ l -> (i < cardinal columns1)%nat) ->
            for_each (compare_body t1 t2 columns1 columns2 rows1 rows2) l d = Raise e ->
            e = TypeError \/ e = KeyError) as Hloop.
  { induction l as [|i l IH]; intros d Hl; simpl; [discriminate|].
    destruct (compare_body _ _ _ _ _ _ i d) as [d'|e'] eqn:Hbody; simpl.
    - apply IH. intros i' Hi'. apply Hl. apply elem_of_cons. auto.
    - intros [= <-].
      destruct (alignable_in_range columns1 columns2 i Hal) as [Hc1 Hc2].
      { apply Hl. apply elem_of_cons. auto. }
      by apply (compare_body_Raise i d). }
  apply Hloop. intros i Hi%elem_of_seq. lia.
Qed.
End Exceptions.

(** X3. Whatever its arguments, [compare_column_values] raises no
    exception other than [ValueError], [TypeError] and [KeyError]: no
    index is out of range and the function never calls itself more than
    once. *)
Theorem compare_column_values_exceptions (t1 t2 : DataFrame)
    (columns1 columns2 : pyobj string) (rows1 rows2 : pyobj key) (e : exn) :
  compare_column_values t1 t2 columns1 columns2 rows1 rows2 = Raise e ->
  e = ValueError \/ e = TypeError \/ e = KeyError.
Proof.
  destruct (can_compare_never_raises columns1 columns2) as [[|] Hcc].
  - assert (alignable columns1 columns2) as Hal by by apply can_compare_alignable.
    assert (forall r1 r2 : pyobj key,
              is_not_None r1 = true -> is_not_None r2 = true ->
              compare_column_values t1 t2 columns1 columns2 r1 r2 = Raise e ->
              e = ValueError \/ e = TypeError \/ e = KeyError) as Hsup.
    { intros r1 r2 H1 H2.
      rewrite (compare_column_values_supplied _ _ _ _ _ _ Hcc H1 H2).
      destruct (can_compare_never_raises r1 r2) as [[|] Hrr]; rewrite Hrr; simpl.
      - intros Hloop. right.
        apply (compare_loop_Raise t1 t2 columns1 columns2 r1 r2 e Hal); [|exact Hloop].
        intros j Hj. apply alignable_in_range; [|exact Hj].
        by apply can_compare_alignable.
      - intros [= <-]. by left. }
    destruct (is_not_None rows1) eqn:H1, (is_not_None rows2) eqn:H2.
    + by apply Hsup.
    + destruct rows2; try discriminate.
      unfold compare_column_values, recursion_limit.
      cbn [compare_column_values_rec]. rewrite Hcc, H1.
      cbn [mbind res_bind negb andb is_not_None].
      intros Hloop. right.
      apply (compare_loop_Raise t1 t2 columns1 columns2 rows1 PNone e Hal);
        [|exact Hloop].
      intros j Hj. split; [|exact I].
      destruct rows1 as [|l|s]; simpl; try exact I. exact Hj.
    + destruct rows1; try discriminate.
      unfold compare_column_values, recursion_limit.
      cbn [compare_column_values_rec]. rewrite Hcc, H2.
      cbn [mbind res_bind negb andb is_not_None].
      intros Hloop. right.
      apply (compare_loop_Raise t1 t2 columns1 columns2 PNone rows2 e Hal);
        [|exact Hloop].
      intros j Hj. unfold cardinal in Hj. simpl in Hj. lia.
    + destruct rows1; try discriminate. destruct rows2; try discriminate.
      rewrite compare_column_values_omitted. by apply Hsup.
  - rewrite compare_column_values_columns_rejected
      by by apply can_compare_not_alignable.
    intros [= <-]. by left.
Qed.

Lemma compare_column_values_exceptions_witness :
  KeyError = ValueError \/ KeyError = TypeError \/ KeyError = KeyError.
Proof.
  apply (compare_column_values_exceptions scenario_table1 scenario_table2
           (PList ["COL1"%string]) (PList ["nope"%string]) PNone PNone KeyError).
  reflexivity.
Defined.

(** ** Absent cells *)



Section AbsentCells.
Variables t1 t2 : DataFrame.
Variables columns1 columns2 : list string.
Variables rows1 rows2 : list key.
Hypothesis Hcolumns : columns1 <> [] /\ length columns1 = length columns2.
Hypothesis Hrows : rows1 <> [] /\ length rows1 = length rows2.







End AbsentCells.



(** ** The shape of the result *)

Lemma dict_get_items {V} (items : list (string * V)) k v :
  dict_get k (dict_of_items items) = Some v -> (k, v) ∈ items.
Proof.
  induction items as [|[k' v'] items IH] using rev_ind; [discriminate|].
  rewrite dict_of_items_snoc, elem_of_app, list_elem_of_singleton.
  destruct (decide (k' = k)) as [->|Hne].
  - rewrite dict_get_set_eq. intros [= ->]. by right.
  - rewrite dict_get_set_ne by exact Hne. auto.
Qed.

Lemma dict_keys_set_eq {V} k (v : V) d :
  dict_keys (dict_set k v d) =
  if decide (k ∈ dict_keys d) then dict_keys d else dict_keys d ++ [k].
Proof.
  unfold dict_keys. induction d as [|[k' v'] d IH]; cbn [dict_set map fst app].
  - destruct (decide (k ∈ [])) as [Hin|_]; [by apply elem_of_nil in Hin | reflexivity].
  - destruct (decide (k = k')) as [->|Hne]; cbn [map fst app].
    + destruct (decide (k' ∈ k' :: map fst d)) as [_|Hnin]; [reflexivity|].
      destruct Hnin. apply elem_of_cons. auto.
    + rewrite IH.
      destruct (decide (k ∈ map fst d)) as [Hin|Hnin];
        destruct (decide (k ∈ k' :: map fst d)) as [Hin'|Hnin'];
        try reflexivity; rewrite elem_of_cons in *; tauto.
Qed.

Lemma first_occurrences_snoc l k :
  first_occurrences (l ++ [k]) =
  if decide (k ∈ l) then first_occurrences l else first_occurrences l ++ [k].
Proof.
  unfold first_occurrences. rewrite reverse_snoc. cbn [remove_dups].
  destruct (decide_rel elem_of k (reverse l)) as [Hin|Hnin];
    destruct (decide (k ∈ l)) as [Hin'|Hnin']; try reflexivity.
  - rewrite elem_of_reverse in Hin. contradiction.
  - rewrite <- elem_of_reverse in Hin'. contradiction.
  - by rewrite reverse_cons.
Qed.

Lemma first_occurrences_NoDup l : NoDup l -> first_occurrences l = l.
Proof.
  induction l as [|k l IH] using rev_ind; [reflexivity|].
  rewrite NoDup_app. intros (Hl & Hk & _).
  rewrite first_occurrences_snoc, decide_False, IH; [reflexivity | exact Hl |].
  intros Hin. apply (Hk k Hin). apply list_elem_of_singleton. reflexivity.
Qed.

Lemma dict_of_items_keys_order {V} (items : list (string * V)) :
  dict_keys (dict_of_items items) = first_occurrences (map fst items).
Proof.
  induction items as [|[k v] items IH] using rev_ind; [reflexivity|].
  rewrite dict_of_items_snoc, dict_keys_set_eq, map_app. cbn [map fst].
  rewrite first_occurrences_snoc, <- IH.
  destruct (decide (k ∈ dict_keys (dict_of_items items))) as [Hin|Hnin].
  - rewrite decide_True; [reflexivity | by apply dict_of_items_keys].
  - rewrite decide_False; [reflexivity|]. by rewrite <- dict_of_items_keys.
Qed.

Lemma diff_items_labels t1 t2 columns1 columns2 rows1 rows2 :
  map fst (diff_items t1 t2 columns1 columns2 rows1 rows2)
  = labels columns1 columns2.
Proof.
  unfold diff_items, labels. revert columns2.
  induction columns1 as [|a c1 IH]; intros [|b c2]; simpl; try reflexivity.
  by rewrite IH.
Qed.

(** X6. With valid arguments, the keys of the result are the labels
    ["{columns1[i]} [vs] {columns2[i]}"] without repetitions, each at
    the place of its first occurrence in the order of the column lists;
    when the labels are pairwise distinct the keys are the labels, one
    per position and in that order. *)
Theorem compare_column_values_key_order (t1 t2 : DataFrame)
    (columns1 columns2 : list string) (rows1 rows2 : pyobj key) :
  rows_aligned rows1 rows2 ->
  valid_comparison t1 t2 columns1 columns2
    (effective_rows t1 rows1) (effective_rows t2 rows2) ->
  exists d,
    compare_column_values t1 t2 (PList columns1) (PList columns2) rows1 rows2
      = Ok d /\
    dict_keys d = first_occurrences (labels columns1 columns2) /\
    (NoDup (labels columns1 columns2) -> dict_keys d = labels columns1 columns2).
Proof.
  intros Hrows Hvalid. eexists. split; [|split].
  - rewrite (effective_rows_run _ _ _ _ _ _ Hrows).
    by apply compare_column_values_items.
  - by rewrite dict_of_items_keys_order, diff_items_labels.
  - intros Hnodup.
    by rewrite dict_of_items_keys_order, diff_items_labels, first_occurrences_NoDup.
Qed.

Lemma key_order_valid :
  valid_comparison scenario_table1 scenario_table2
    ["COL3"%string; "COL1"%string; "COL3"%string]
    ["col2"%string; "col1"%string; "col2"%string]
    [KInt 0; KInt 1] [KInt 0; KInt 1].
Proof. concrete_valid. Defined.

Lemma compare_column_values_key_order_witness :
  exists d,
    compare_column_values scenario_table1 scenario_table2
      (PList ["COL3"%string; "COL1"%string; "COL3"%string])
      (PList ["col2"%string; "col1"%string; "col2"%string]) PNone PNone = Ok d /\
    dict_keys d = ["COL3 [vs] col2"%string; "COL1 [vs] col1"%string].
Proof.
  destruct (compare_column_values_key_order scenario_table1 scenario_table2
              ["COL3"%string; "COL1"%string; "COL3"%string]
              ["col2"%string; "col1"%string; "col2"%string] PNone PNone)
    as (d & Hrun & Hkeys & _).
  - left. split; reflexivity.
  - exact key_order_valid.
  - exists d. split; [exact Hrun|]. rewrite Hkeys. reflexivity.
Defined.

Lemma index_of_lookup (idx : list key) (j : nat) (r : key) :
  NoDup idx -> idx !! j = Some r -> index_of r idx = Some j.
Proof.
  intros Hnd. revert j. induction Hnd as [|r' idx Hr' _ IH]; intros j; simpl.
  - discriminate.
  - destruct j as [|j]; simpl.
    + intros [= ->]. by rewrite decide_True.
    + intros Hj. rewrite decide_False.
      * rewrite (IH j Hj). reflexivity.
      * intros ->. apply Hr'. eapply list_elem_of_lookup_2. exact Hj.
Qed.

(** With unique row labels, the cell of the [j]-th label of the index
    is the [j]-th value of the column. *)
Lemma df_cell_index t c s j r :
  df_wf t -> assoc c (df_data t) = Some s -> df_index t !! j = Some r ->
  df_cell t r c = col_at s j.
Proof.
  intros Hwf Hs Hr. unfold df_cell. rewrite Hs. cbn [mbind option_bind].
  rewrite (index_of_lookup _ _ _ (wf_index _ Hwf) Hr). reflexivity.
Qed.

(** X4. With both row arguments omitted, the rows of the two tables are
    paired by position, whatever their labels: for valid arguments, at
    every position whose label no later position has, the entry of the
    result has one pair per row, and the pair of row [j] holds the
    label ["{index1[j]} [vs] {index2[j]}"] and the difference of the
    [j]-th value of the first column and the [j]-th value of the
    second. *)
Theorem compare_column_values_by_position (t1 t2 : DataFrame)
    (columns1 columns2 : list string) :
  valid_comparison t1 t2 columns1 columns2 (df_index t1) (df_index t2) ->
  exists d,
    compare_column_values t1 t2 (PList columns1) (PList columns2) PNone PNone
    = Ok d /\
    forall i a b, columns1 !! i = Some a -> columns2 !! i = Some b ->
      (forall k, (i < k)%nat ->
         label_at columns1 columns2 k <> Some (format_vs a b)) ->
      exists s1 s2 l,
        assoc a (df_data t1) = Some s1 /\ assoc b (df_data t2) = Some s2 /\
        dict_get (format_vs a b) d = Some l /\
        length l = length (df_index t1) /\
        forall j r1 r2,
          df_index t1 !! j = Some r1 -> df_index t2 !! j = Some r2 ->
          exists v1 v2,
            col_at s1 j = Some v1 /\ col_at s2 j = Some v2 /\
            l !! j = Some (format_vs r1 r2, scalar_sub v1 v2).
Proof.
  intros Hvalid.
  pose proof (dict_of_items_holds_last_diff _ _ _ _ _ _ Hvalid) as Hlast.
  pose proof Hvalid as [Hwf1 Hwf2 _ Hc1 Hc2 _ _ _].
  eexists. split.
  - rewrite compare_column_values_omitted.
    by apply compare_column_values_items.
  - intros i a b Hi1 Hi2 Hlate.
    destruct (Hlast i a b Hi1 Hi2)
      as (k & a' & b' & l & Hik & Hk1 & Hk2 & Hlab & _ & Hget & Hlen & Hl).
    assert (k = i) as ->.
    { destruct (decide (k = i)) as [|Hne']; [assumption|].
      destruct (Hlate k ltac:(lia)). unfold label_at.
      rewrite Hk1, Hk2. simpl. congruence. }
    assert (a' = a) as -> by congruence.
    assert (b' = b) as -> by congruence.
    assert (a ∈ df_columns t1) as [s1 Hs1]%assoc_is_Some
      by (apply Hc1; eapply list_elem_of_lookup_2; exact Hi1).
    assert (b ∈ df_columns t2) as [s2 Hs2]%assoc_is_Some
      by (apply Hc2; eapply list_elem_of_lookup_2; exact Hi2).
    exists s1, s2, l. split; [exact Hs1|]. split; [exact Hs2|].
    split; [exact Hget|]. split; [exact Hlen|].
    intros j r1 r2 Hr1 Hr2.
    destruct (Hl j r1 r2 Hr1 Hr2) as (v1 & v2 & Hv1 & Hv2 & Hj).
    exists v1, v2.
    rewrite <- (df_cell_index t1 a s1 j r1 Hwf1 Hs1 Hr1).
    rewrite <- (df_cell_index t2 b s2 j r2 Hwf2 Hs2 Hr2). auto.
Qed.

Lemma compare_column_values_by_position_witness :
  exists d l,
    compare_column_values scenario_table1 scenario_table2
      (PList ["COL1"%string]) (PList ["col1"%string]) PNone PNone = Ok d /\
    dict_get "COL1 [vs] col1"%string d = Some l /\
    l !! 1%nat = Some ("1 [vs] 1"%string, I64 2).
Proof.
  destruct (compare_column_values_by_position scenario_table1 scenario_table2
              ["COL1"%string] ["col1"%string] scenario_valid)
    as (d & Hrun & Hat).
  destruct (Hat 0%nat "COL1"%string "col1"%string eq_refl eq_refl)
    as (s1 & s2 & l & Hs1 & Hs2 & Hget & _ & Hl).
  - intros [|k] Hk; [lia | vm_compute; discriminate].
  - exists d, l. split; [exact Hrun|]. split; [exact Hget|].
    destruct (Hl 1%nat (KInt 1) (KInt 1) eq_refl eq_refl)
      as (v1 & v2 & Hv1 & Hv2 & Hj).
    vm_compute in Hs1, Hs2. injection Hs1 as <-. injection Hs2 as <-.
    vm_compute in Hv1, Hv2. injection Hv1 as <-. injection Hv2 as <-.
    exact Hj.
Defined.

Lemma SFsub_self f :
  F64 (SFsub prec emax f f) = self_diff (F64 f).
Proof.
  destruct f as [[|]|[|]| |s m e]; cbn [SFsub self_diff]; try reflexivity.
  rewrite Z.sub_diag. reflexivity.
Qed.

(** A scalar minus itself. *)
Lemma scalar_sub_self v : scalar_sub v v = self_diff v.
Proof.
  destruct v as [z|f]; cbn [scalar_sub to_float].
  - rewrite Z.sub_diag. reflexivity.
  - apply SFsub_self.
Qed.

Lemma self_diff_zero_or_nan v :
  (is_finite v -> is_zero (self_diff v)) /\
  (is_zero (self_diff v) \/ self_diff v = F64 S754_nan).
Proof.
  destruct v as [z|[s|s| |s m e]]; cbn; split; auto; tauto.
Qed.

(** X7. A table compared with itself, column by column and with the
    row arguments omitted: for a table that satisfies the invariant of
    the data model and has rows, and a non-empty list of names of its
    columns, every entry of the result is the entry of a requested
    column and has one pair per row, which holds the difference of the
    cell and itself. That difference is zero, [0] or [0.0], unless the
    cell is a NaN or an infinite float: then it is NaN. *)
Theorem compare_column_values_self (t : DataFrame) (columns : list string) :
  df_wf t -> df_index t <> [] -> columns <> [] ->
  (forall c, c ∈ columns -> c ∈ df_columns t) ->
  exists d,
    compare_column_values t t (PList columns) (PList columns) PNone PNone = Ok d /\
    (forall c, c ∈ columns -> is_Some (dict_get (format_vs c c) d)) /\
    forall k l, dict_get k d = Some l ->
      length l = length (df_index t) /\
      exists c, c ∈ columns /\ k = format_vs c c /\
        forall j r, df_index t !! j = Some r ->
          exists v, df_cell t r c = Some v /\
            l !! j = Some (format_vs r r, self_diff v) /\
            (is_finite v -> is_zero (self_diff v)) /\
            (is_zero (self_diff v) \/ self_diff v = F64 S754_nan).
Proof.
  intros Hwf Hidx Hne Hcols.
  assert (valid_comparison t t columns columns (df_index t) (df_index t)) as Hvalid
    by (split; auto).
  exists (dict_of_items (diff_items t t columns columns (df_index t) (df_index t))).
  split; [|split].
  - rewrite compare_column_values_omitted. by apply compare_column_values_items.
  - intros c [i Hi]%list_elem_of_lookup.
    destruct (dict_of_items_holds_last_diff _ _ _ _ _ _ Hvalid i c c Hi Hi)
      as (_ & _ & _ & l & _ & _ & _ & _ & _ & Hget & _). eauto.
  - intros k l Hget%dict_get_items.
    apply list_elem_of_lookup in Hget as [i Hi].
    apply diff_items_lookup in Hi as (a & b & Ha & Hb & [= -> ->]).
    assert (b = a) as -> by congruence.
    assert (a ∈ columns) as Hin by (eapply list_elem_of_lookup_2; exact Ha).
    split; [by apply (column_diff_length _ _ _ _ _ _ Hvalid)|].
    exists a. split; [exact Hin|]. split; [reflexivity|].
    intros j r Hr.
    destruct (column_diff_lookup _ _ _ _ _ _ Hvalid a a j r r Hin Hin Hr Hr)
      as (v1 & v2 & Hv1 & Hv2 & Hj).
    assert (v2 = v1) as -> by congruence.
    exists v1. split; [exact Hv1|]. rewrite scalar_sub_self in Hj.
    split; [exact Hj|]. apply self_diff_zero_or_nan.
Qed.

Lemma compare_column_values_self_witness :
  exists d,
    compare_column_values scenario_table1 scenario_table1
      (PList ["COL1"%string; "COL3"%string]) (PList ["COL1"%string; "COL3"%string])
      PNone PNone = Ok d /\
    dict_get "COL3 [vs] COL3"%string d
    = Some [("0 [vs] 0"%string, I64 0); ("1 [vs] 1"%string, I64 0)].
Proof.
  destruct (compare_column_values_self scenario_table1
              ["COL1"%string; "COL3"%string]) as (d & Hrun & _).
  - split; [by_decide | by_decide | repeat constructor].
  - discriminate.
  - discriminate.
  - apply Forall_forall. by_decide.
  - exists d. split; [exact Hrun|].
    vm_compute in Hrun. injection Hrun as <-. reflexivity.
Defined.

(** X8. Sets of column names are never compared value by value: they
    pass the check of [__can_compare] like lists do, but
    [compare_column_values] returns no result for them, whatever the
    tables and the row arguments; with alignable sets and non-empty row
    lists of one length it raises [TypeError]. *)
Theorem compare_column_values_sets (t1 t2 : DataFrame) (s1 s2 : gset string)
    (rows1 rows2 : pyobj key) :
  (forall d,
     compare_column_values t1 t2 (PSet s1) (PSet s2) rows1 rows2 <> Ok d) /\
  (alignable (PSet s1) (PSet s2) ->
   forall r1 r2 : list key, r1 <> [] -> length r1 = length r2 ->
     compare_column_values t1 t2 (PSet s1) (PSet s2) (PList r1) (PList r2)
     = Raise TypeError).
Proof.
  assert (forall (r1 r2 : pyobj key) i d,
            is_ok (compare_body t1 t2 (PSet s1) (PSet s2) r1 r2 i d) = false)
    as Hbody.
  { intros r1 r2 i d. unfold compare_body.
    destruct (len r1); simpl; [|reflexivity].
    destruct (mapM _ _); reflexivity. }
  assert (forall (r1 r2 : pyobj key) n,
            (0 < n)%nat ->
            is_ok (for_each (compare_body t1 t2 (PSet s1) (PSet s2) r1 r2)
                     (seq 0 n) []) = false) as Hloop.
  { intros r1 r2 [|n] Hn; [lia|]. simpl.
    specialize (Hbody r1 r2 0%nat []).
    destruct (compare_body _ _ _ _ _ _ 0%nat []); [discriminate | reflexivity]. }
  split.
  - intros d Hrun.
    destruct (can_compare_never_raises (PSet s1) (PSet s2)) as [[|] Hcc].
    + assert (0 < size s1)%nat as Hpos.
      { apply can_compare_alignable in Hcc as (_ & _ & _ & Hpos & _). exact Hpos. }
      assert (forall r1 r2 : pyobj key,
                is_not_None r1 = true -> is_not_None r2 = true ->
                compare_column_values t1 t2 (PSet s1) (PSet s2) r1 r2 <> Ok d)
        as Hsup.
      { intros r1 r2 H1 H2.
        rewrite (compare_column_values_supplied _ _ _ _ _ _ Hcc H1 H2).
        destruct (can_compare r1 r2) as [[|]|e]; simpl; try discriminate.
        intros Hr. specialize (Hloop r1 r2 (size s1) Hpos). by rewrite Hr in Hloop. }
      assert (forall r1 r2 : pyobj key,
                is_not_None r1 <> is_not_None r2 ->
                compare_column_values t1 t2 (PSet s1) (PSet s2) r1 r2 <> Ok d)
        as Hone.
      { intros r1 r2 Hne. unfold compare_column_values, recursion_limit.
        cbn [compare_column_values_rec]. rewrite Hcc. cbn [mbind res_bind negb].
        assert (is_not_None r1 && is_not_None r2 = false) as ->
          by (destruct r1, r2; simpl in *; congruence).
        assert (negb (is_not_None r1) && negb (is_not_None r2) = false) as ->
          by (destruct r1, r2; simpl in *; congruence).
        cbn [mbind res_bind len].
        intros Hr. specialize (Hloop r1 r2 (size s1) Hpos). by rewrite Hr in Hloop. }
      destruct (is_not_None rows1) eqn:H1, (is_not_None rows2) eqn:H2.
      * by apply (Hsup rows1 rows2).
      * apply (Hone rows1 rows2); congruence.
      * apply (Hone rows1 rows2); congruence.
      * destruct rows1; try discriminate. destruct rows2; try discriminate.
        rewrite compare_column_values_omitted in Hrun.
        by apply (Hsup (PList (df_index t1)) (PList (df_index t2))).
    + rewrite compare_column_values_columns_rejected in Hrun; [discriminate|].
      by apply can_compare_not_alignable.
  - intros Hal r1 r2 Hne Hlen.
    rewrite compare_column_values_supplied; try reflexivity;
      [|by apply can_compare_alignable].
    rewrite can_compare_lists, bool_decide_eq_true_2 by auto.
    cbn [mbind res_bind negb len].
    destruct Hal as (_ & _ & _ & Hpos & _). unfold cardinal in Hpos. simpl in Hpos.
    change (length (elements s1)) with (size s1) in Hpos.
    destruct (size s1) as [|n]; [lia|].
    destruct r1 as [|a r1]; [congruence|]. destruct r2 as [|b r2]; [discriminate|].
    reflexivity.
Qed.

Lemma compare_column_values_sets_witness :
  compare_column_values scenario_table1 scenario_table2
    (PSet {["COL1"%string]}) (PSet {["col1"%string]})
    (PList [KInt 0]) (PList [KInt 0])
  = Raise TypeError.
Proof.
  apply (proj2 (compare_column_values_sets scenario_table1 scenario_table2
                  {["COL1"%string]} {["col1"%string]} PNone PNone)).
  - apply can_compare_alignable. vm_compute. reflexivity.
  - discriminate.
  - reflexivity.
Defined.

(** ** The outcomes of [compare_column_sums] *)

Lemma alignable_not_None {A} `{Countable A} (xs ys : pyobj A) :
  alignable xs ys -> xs <> PNone /\ ys <> PNone.
Proof. intros (? & ? & _). auto. Qed.

Lemma alignable_sym {A} `{Countable A} (xs ys : pyobj A) :
  alignable xs ys -> alignable ys xs.
Proof.
  intros (H1 & H2 & Ht & Hpos & Hlen). unfold alignable.
  rewrite <- Hlen. auto.
Qed.

Section SumsFacts.
Variable float_sum : list spec_float -> spec_float.

Lemma sum_column_present t c :
  c ∈ df_columns t ->
  sum_column float_sum t c = Ok (c, column_sum float_sum t c).
Proof.
  intros Hc. destruct (df_getitem_Ok t c Hc) as (vs & Hvs & Hget).
  unfold sum_column, column_sum. rewrite Hget, Hvs. reflexivity.
Qed.

Lemma sum_column_values_cases t columns :
  columns <> PNone ->
  (~ absent_column t columns /\
   sum_column_values float_sum t columns
   = Ok (column_sums float_sum t (requested columns))) \/
  (absent_column t columns /\
   sum_column_values float_sum t columns = Raise KeyError).
Proof.
  intros Hnone.
  assert (forall l : list string,
            ((forall c, c ∈ l -> c ∈ df_columns t) /\
             mapM (sum_column float_sum t) l = Ok (column_sums float_sum t l)) \/
            ((exists c, c ∈ l /\ c ∉ df_columns t) /\
             mapM (sum_column float_sum t) l = Raise KeyError)) as Hlist.
  { induction l as [|c l IH].
    - left. split; [intros c Hc; by apply elem_of_nil in Hc | reflexivity].
    - rewrite mapM_res_cons.
      destruct (decide (c ∈ df_columns t)) as [Hc|Hc].
      + rewrite (sum_column_present t c Hc). cbn [mbind res_bind].
        destruct IH as [[Hall ->]|[(c' & Hc' & Habs) ->]].
        * left. split; [|reflexivity].
          intros c' [->|Hc']%elem_of_cons; auto.
        * right. split; [|reflexivity].
          exists c'. split; [apply elem_of_cons; auto | exact Habs].
      + right. split; [exists c; split; [apply elem_of_cons; auto | exact Hc]|].
        assert (sum_column float_sum t c = Raise KeyError) as ->
          by (apply sum_column_Raise; auto).
        reflexivity. }
  unfold absent_column, sum_column_values.
  destruct columns as [|l|s]; [congruence| |]; cbn [to_list requested mbind res_bind].
  - destruct (Hlist l) as [[Hall Hrun]|[Habs Hrun]]; [left|right]; split; auto.
    intros (c & Hc & Habs). auto.
  - destruct (Hlist (elements s)) as [[Hall Hrun]|[Habs Hrun]]; [left|right];
      split; auto.
    intros (c & Hc & Habs). auto.
Qed.

(** The three outcomes of [compare_column_sums]. *)
Lemma compare_column_sums_cases t1 t2 columns1 columns2 :
  (~ alignable columns1 columns2 /\
   compare_column_sums float_sum t1 t2 columns1 columns2 = Raise ValueError) \/
  (alignable columns1 columns2 /\
   (absent_column t1 columns1 \/ absent_column t2 columns2) /\
   compare_column_sums float_sum t1 t2 columns1 columns2 = Raise KeyError) \/
  (alignable columns1 columns2 /\
   ~ absent_column t1 columns1 /\ ~ absent_column t2 columns2 /\
   compare_column_sums float_sum t1 t2 columns1 columns2
   = Ok (sums_diff float_sum t1 t2 (requested columns1) (requested columns2))).
Proof.
  unfold compare_column_sums.
  destruct (can_compare_never_raises columns1 columns2) as [[|] Hcc];
    rewrite Hcc; cbn [mbind res_bind negb].
  - apply can_compare_alignable in Hcc.
    destruct (alignable_not_None _ _ Hcc) as [Hn1 Hn2]. right.
    destruct (sum_column_values_cases t1 columns1 Hn1) as [[Hp1 ->]|[Ha1 ->]];
      cbn [mbind res_bind]; [|left; auto].
    destruct (sum_column_values_cases t2 columns2 Hn2) as [[Hp2 ->]|[Ha2 ->]];
      cbn [mbind res_bind]; [|left; auto].
    right. split; [exact Hcc|]. split; [exact Hp1|]. split; [exact Hp2|].
    f_equal. unfold column_sums, sums_diff.
    generalize (requested columns2). generalize (requested columns1).
    induction l as [|c1 l1 IH]; intros [|c2 l2]; simpl; [reflexivity..|].
    f_equal. apply IH.
  - apply can_compare_not_alignable in Hcc. left. auto.
Qed.

Lemma sums_diff_length t1 t2 l1 l2 :
  length l1 = length l2 -> length (sums_diff float_sum t1 t2 l1 l2) = length l1.
Proof. intros Hlen. unfold sums_diff. rewrite length_zip_with. lia. Qed.

Lemma sums_diff_lookup t1 t2 l1 l2 i lx :
  sums_diff float_sum t1 t2 l1 l2 !! i = Some lx <->
  exists c1 c2, l1 !! i = Some c1 /\ l2 !! i = Some c2 /\
    lx = (format_vs c1 c2,
          scalar_sub (column_sum float_sum t1 c1) (column_sum float_sum t2 c2)).
Proof.
  unfold sums_diff. rewrite lookup_zip_with_Some.
  split; intros (c1 & c2 & H); exists c1, c2; tauto.
Qed.
End SumsFacts.

(** X10. [compare_column_sums] has three outcomes, whatever its
    arguments: it raises [ValueError] exactly when the two arguments
    cannot be paired position by position; it raises [KeyError] exactly
    when they can and a requested name is not a column of its table; in
    every other case it returns, for the names in the order in which
    the two arguments are iterated, the label and the difference of the
    sums of the two columns, sums and difference as the scalars that
    they are ([int64] ones with wrap-around). No other exception is
    raised, and sets of names are accepted like lists. *)
Theorem compare_column_sums_outcomes (float_sum : list spec_float -> spec_float)
    (t1 t2 : DataFrame) (columns1 columns2 : pyobj string) :
  (compare_column_sums float_sum t1 t2 columns1 columns2 = Raise ValueError <->
   ~ alignable columns1 columns2) /\
  (compare_column_sums float_sum t1 t2 columns1 columns2 = Raise KeyError <->
   alignable columns1 columns2 /\
   (absent_column t1 columns1 \/ absent_column t2 columns2)) /\
  (forall e, compare_column_sums float_sum t1 t2 columns1 columns2 = Raise e ->
     e = ValueError \/ e = KeyError) /\
  (forall out, compare_column_sums float_sum t1 t2 columns1 columns2 = Ok out <->
     alignable columns1 columns2 /\
     ~ absent_column t1 columns1 /\ ~ absent_column t2 columns2 /\
     out = sums_diff float_sum t1 t2 (requested columns1) (requested columns2)).
Proof.
  destruct (compare_column_sums_cases float_sum t1 t2 columns1 columns2)
    as [[Hna Hrun]|[(Ha & Habs & Hrun)|(Ha & Hp1 & Hp2 & Hrun)]];
    rewrite Hrun.
  - split; [tauto|]. split; [split; [discriminate | tauto]|].
    split; [intros e [= <-]; auto|].
    intros out. split; [discriminate | tauto].
  - split; [split; [discriminate | tauto]|]. split; [tauto|].
    split; [intros e [= <-]; auto|].
    intros out. split; [discriminate | tauto].
  - split; [split; [discriminate | tauto]|].
    split; [split; [discriminate | tauto]|].
    split; [discriminate|].
    intros out. split.
    + intros [= <-]. auto.
    + intros (_ & _ & _ & ->). reflexivity.
Qed.

(** The sum of the overflowing column minus the sum of a column of
    zeros: the difference of the sums is the wrapped sum [-2^63]. *)
Lemma compare_column_sums_int64_wrap :
  compare_column_sums sequential_sum overflow_table collision_table2
    (PList ["COL1"%string]) (PList ["c"%string])
  = Ok [("COL1 [vs] c"%string, I64 (- 2 ^ 63))].
Proof. reflexivity. Qed.

(** *** Opposite differences *)

Lemma binary_round_aux_opp mx ex lx :
  binary_round_aux prec emax true mx ex lx
  = SFopp (binary_round_aux prec emax false mx ex lx).
Proof.
  unfold binary_round_aux.
  destruct (shr_fexp prec emax mx ex lx) as [mrs' e'].
  destruct (shr_fexp prec emax _ e' loc_Exact) as [mrs'' e''].
  destruct (shr_m mrs''); [reflexivity | | reflexivity].
  destruct (e'' <=? emax - prec)%Z; reflexivity.
Qed.

Lemma binary_normalize_opp m e :
  m <> 0 ->
  binary_normalize prec emax (- m) e false
  = SFopp (binary_normalize prec emax m e false).
Proof.
  destruct m as [|p|p]; [congruence| |]; intros _.
  - change (- Z.pos p) with (Z.neg p). unfold binary_normalize, binary_round.
    destruct (shl_align _ _ _) as [mz ez]. apply binary_round_aux_opp.
  - change (- Z.neg p) with (Z.pos p). unfold binary_normalize, binary_round.
    destruct (shl_align _ _ _) as [mz ez]. rewrite binary_round_aux_opp.
    destruct (binary_round_aux prec emax false (Z.pos mz) ez loc_Exact)
      as [[|]|[|]| |[|] m' e']; reflexivity.
Qed.

Lemma SFsub_swap x y :
  SFsub prec emax y x = SFopp (SFsub prec emax x y) \/
  (exists s s', SFsub prec emax x y = S754_zero s /\
                SFsub prec emax y x = S754_zero s').
Proof.
  destruct x as [[|]|[|]| |sx mx ex], y as [[|]|[|]| |sy my ey];
    cbn [SFsub SFopp negb]; try (left; reflexivity); try (right; eauto; fail).
  - left. by rewrite Bool.negb_involutive.
  - left. by rewrite Bool.negb_involutive.
  - change IntDef.Z.min with Z.min. rewrite (Z.min_comm ey ex).
    set (a := cond_Zopp sx (Z.pos (shl_align mx ex (ex `min` ey)).1)).
    set (b := cond_Zopp sy (Z.pos (shl_align my ey (ex `min` ey)).1)).
    destruct (decide (a - b = 0)) as [Hz|Hnz].
    + right. exists false, false. rewrite Hz.
      replace (b - a) with 0 by lia. split; reflexivity.
    + left. replace (b - a) with (- (a - b)) by lia.
      by apply binary_normalize_opp.
Qed.

Lemma scalar_sub_swap x y : opposite (scalar_sub x y) (scalar_sub y x).
Proof.
  assert (forall f g, opposite (F64 (SFsub prec emax f g))
                               (F64 (SFsub prec emax g f))) as Hfloat.
  { intros f g. unfold opposite.
    destruct (SFsub_swap f g) as [Heq|(s & s' & H1 & H2)].
    - left. rewrite Heq. reflexivity.
    - right. exists s, s'. rewrite H1, H2. split; reflexivity. }
  destruct x as [a|f], y as [b|g]; cbn [scalar_sub to_float];
    try apply Hfloat.
  left. cbn [scalar_neg]. f_equal. rewrite wrap64_opp. f_equal. lia.
Qed.

(** X11. Exchanging the two tables together with their column
    arguments changes nothing but the signs and the labels:
    [compare_column_sums] raises the same exception, or returns a list
    of the same length whose differences are the opposites. The
    opposite is that of the scalars: the opposite of the least [int64]
    is itself, and a float zero is opposite to the zeros of both
    signs. *)
Theorem compare_column_sums_swap (float_sum : list spec_float -> spec_float)
    (t1 t2 : DataFrame) (columns1 columns2 : pyobj string) :
  (forall e, compare_column_sums float_sum t2 t1 columns2 columns1 = Raise e <->
             compare_column_sums float_sum t1 t2 columns1 columns2 = Raise e) /\
  (forall out, compare_column_sums float_sum t1 t2 columns1 columns2 = Ok out ->
     exists out',
       compare_column_sums float_sum t2 t1 columns2 columns1 = Ok out' /\
       length out' = length out /\
       forall i c1 c2, requested columns1 !! i = Some c1 ->
         requested columns2 !! i = Some c2 ->
         exists x x', out !! i = Some (format_vs c1 c2, x) /\
                      out' !! i = Some (format_vs c2 c1, x') /\
                      opposite x x').
Proof.
  destruct (compare_column_sums_cases float_sum t1 t2 columns1 columns2)
    as [[Hna Hrun]|[(Ha & Habs & Hrun)|(Ha & Hp1 & Hp2 & Hrun)]];
    destruct (compare_column_sums_cases float_sum t2 t1 columns2 columns1)
    as [[Hna' Hrun']|[(Ha' & Habs' & Hrun')|(Ha' & Hp1' & Hp2' & Hrun')]];
    try (exfalso; auto using alignable_sym; tauto);
    rewrite Hrun, Hrun'.
  - split; [tauto | discriminate].
  - split; [tauto | discriminate].
  - split; [split; discriminate|].
    intros out [= <-]. eexists. split; [reflexivity|].
    destruct Ha as (_ & _ & _ & _ & Hlen). unfold cardinal in Hlen.
    split; [rewrite !sums_diff_length; auto|].
    intros i c1 c2 Hi1 Hi2.
    exists (scalar_sub (column_sum float_sum t1 c1) (column_sum float_sum t2 c2)),
           (scalar_sub (column_sum float_sum t2 c2) (column_sum float_sum t1 c1)).
    split; [apply sums_diff_lookup; eauto|].
    split; [apply sums_diff_lookup; eauto|].
    apply scalar_sub_swap.
Qed.

Lemma compare_column_sums_swap_witness :
  exists out',
    compare_column_sums sequential_sum scenario_table2 scenario_table1
      (PList ["col1"; "col2"]%string) (PList ["COL1"; "COL3"]%string) = Ok out' /\
    out' !! 0%nat = Some ("col1 [vs] COL1"%string, I64 (-2)).
Proof.
  destruct (proj2 (compare_column_sums_swap sequential_sum
                     scenario_table1 scenario_table2
                     (PList ["COL1"; "COL3"]%string) (PList ["col1"; "col2"]%string))
              _ eq_refl) as (out' & Hrun & _ & Hat).
  exists out'. split; [exact Hrun|].
  destruct (Hat 0%nat "COL1"%string "col1"%string eq_refl eq_refl)
    as (x & x' & Hx & Hx' & [->|(s & s' & -> & _)]).
  - vm_compute in Hx. injection Hx as <-. exact Hx'.
  - vm_compute in Hx. discriminate.
Defined.

(** X12. Comparing the sums of a table with its own, for the same
    columns, gives for every requested name, when it gives a result,
    the difference of the sum and itself: zero, [0] or [0.0], unless
    the sum is a NaN or an infinite float, for which it is NaN. *)
Theorem compare_column_sums_self (float_sum : list spec_float -> spec_float)
    (t : DataFrame) (columns : pyobj string) (out : list (string * scalar)) :
  compare_column_sums float_sum t t columns columns = Ok out ->
  out = map (fun c => (format_vs c c, self_diff (column_sum float_sum t c)))
          (requested columns) /\
  forall x, x ∈ out ->
    (is_zero (snd x) \/ snd x = F64 S754_nan) /\
    ((forall c, c ∈ requested columns -> is_finite (column_sum float_sum t c)) ->
     is_zero (snd x)).
Proof.
  intros Hrun.
  destruct (compare_column_sums_cases float_sum t t columns columns)
    as [[_ Hrun']|[(_ & _ & Hrun')|(_ & _ & _ & Hrun')]];
    rewrite Hrun' in Hrun; try discriminate.
  injection Hrun as <-. clear Hrun'.
  assert (sums_diff float_sum t t (requested columns) (requested columns)
          = map (fun c => (format_vs c c, self_diff (column_sum float_sum t c)))
              (requested columns)) as ->.
  { unfold sums_diff.
    induction (requested columns) as [|c l IH]; simpl; [reflexivity|].
    rewrite IH, scalar_sub_self. reflexivity. }
  split; [reflexivity|].
  intros x Hx. change (map ?f ?l) with (f <$> l) in Hx.
  apply list_elem_of_fmap in Hx as (c & -> & Hc). cbn [snd].
  destruct (self_diff_zero_or_nan (column_sum float_sum t c)) as [Hfin Hor].
  split; [exact Hor|]. intros Hall. apply Hfin, Hall, Hc.
Qed.

Lemma compare_column_sums_self_witness :
  compare_column_sums sequential_sum doc_table doc_table
    (PSet {["COL1"%string]}) (PSet {["COL1"%string]})
  = Ok [("COL1 [vs] COL1"%string, I64 0)] /\
  [("COL1 [vs] COL1"%string, I64 0)]
  = map (fun c => (format_vs c c, self_diff (column_sum sequential_sum doc_table c)))
      (requested (PSet {["COL1"%string]})).
Proof.
  split; [vm_compute; reflexivity|].
  apply (compare_column_sums_self sequential_sum doc_table). vm_compute. reflexivity.
Defined.

(** ** Differences of values and differences of sums *)

Lemma arithmetic_sum_sub (xs ys : list Z) :
  length xs = length ys ->
  arithmetic_sum (zip_with Z.sub xs ys) = arithmetic_sum xs - arithmetic_sum ys.
Proof.
  unfold arithmetic_sum. revert ys.
  induction xs as [|x xs IH]; intros [|y ys]; simpl; try discriminate;
    [reflexivity|].
  intros [= Hlen]. rewrite (IH ys Hlen). lia.
Qed.

Lemma wrap64_arithmetic_sum (zs : list Z) :
  wrap64 (arithmetic_sum (map wrap64 zs)) = wrap64 (arithmetic_sum zs).
Proof.
  unfold arithmetic_sum. induction zs as [|z zs IH]; simpl; [reflexivity|].
  rewrite wrap64_add_l, <- wrap64_add_r, IH, wrap64_add_r. reflexivity.
Qed.

Lemma column_length t c s :
  df_wf t -> assoc c (df_data t) = Some s -> col_length s = length (df_index t).
Proof.
  intros [_ _ Hlen] Hs%assoc_Some_elem_of.
  rewrite Forall_forall in Hlen. exact (Hlen _ Hs).
Qed.

(** Over the whole index of two tables, the differences of two [int64]
    columns are the differences of their values, position by
    position. *)
Lemma is_diff_index_ints t1 t2 a b vs1 vs2 l :
  df_wf t1 -> df_wf t2 ->
  length (df_index t1) = length (df_index t2) ->
  assoc a (df_data t1) = Some (IntCol vs1) ->
  assoc b (df_data t2) = Some (IntCol vs2) ->
  is_diff t1 t2 a b (df_index t1) (df_index t2) l ->
  map snd l = map I64 (map wrap64 (zip_with Z.sub vs1 vs2)).
Proof.
  intros Hwf1 Hwf2 Hidx Hvs1 Hvs2 [Hlen Hl].
  pose proof (column_length _ _ _ Hwf1 Hvs1) as Hl1.
  pose proof (column_length _ _ _ Hwf2 Hvs2) as Hl2.
  cbn [col_length] in Hl1, Hl2.
  apply list_eq. intros j.
  change (map snd l) with (snd <$> l).
  change (map I64 (map wrap64 (zip_with Z.sub vs1 vs2)))
    with (I64 <$> (wrap64 <$> zip_with Z.sub vs1 vs2)).
  rewrite !list_lookup_fmap.
  destruct (df_index t1 !! j) as [r1|] eqn:Hr1.
  - destruct (df_index t2 !! j) as [r2|] eqn:Hr2.
    2: { apply lookup_lt_Some in Hr1. apply lookup_ge_None in Hr2. lia. }
    destruct (Hl j r1 r2 Hr1 Hr2) as (v1 & v2 & Hv1 & Hv2 & Hj).
    rewrite Hj. cbn [fmap option_fmap option_map snd].
    rewrite (df_cell_index t1 a _ j r1 Hwf1 Hvs1 Hr1) in Hv1.
    rewrite (df_cell_index t2 b _ j r2 Hwf2 Hvs2 Hr2) in Hv2.
    cbn [col_at] in Hv1, Hv2.
    destruct (vs1 !! j) as [z1|] eqn:Hz1; [|discriminate].
    destruct (vs2 !! j) as [z2|] eqn:Hz2; [|discriminate].
    cbn in Hv1, Hv2. injection Hv1 as <-. injection Hv2 as <-.
    rewrite (proj2 (lookup_zip_with_Some Z.sub vs1 vs2 j (z1 - z2)))
      by eauto.
    reflexivity.
  - apply lookup_ge_None in Hr1.
    rewrite (proj2 (lookup_ge_None l j)) by lia.
    rewrite (proj2 (lookup_ge_None (zip_with Z.sub vs1 vs2) j))
      by (rewrite length_zip_with; lia).
    reflexivity.
Qed.

(** X13. With both row arguments omitted and valid arguments, the two
    comparisons agree on [int64] columns: at every position whose label
    no later position has, the differences that
    [compare_column_values] lists under the label add up, in [int64],
    to the difference that [compare_column_sums] gives at that
    position. *)
Theorem compare_column_values_sums (float_sum : list spec_float -> spec_float)
    (t1 t2 : DataFrame) (columns1 columns2 : list string) :
  valid_comparison t1 t2 columns1 columns2 (df_index t1) (df_index t2) ->
  exists d out,
    compare_column_values t1 t2 (PList columns1) (PList columns2) PNone PNone
    = Ok d /\
    compare_column_sums float_sum t1 t2 (PList columns1) (PList columns2)
    = Ok out /\
    forall i a b vs1 vs2, columns1 !! i = Some a -> columns2 !! i = Some b ->
      (forall k, (i < k)%nat ->
         label_at columns1 columns2 k <> Some (format_vs a b)) ->
      assoc a (df_data t1) = Some (IntCol vs1) ->
      assoc b (df_data t2) = Some (IntCol vs2) ->
      exists l zs,
        dict_get (format_vs a b) d = Some l /\
        map snd l = map I64 zs /\
        out !! i = Some (format_vs a b, I64 (wrap64 (arithmetic_sum zs))).
Proof.
  intros Hvalid.
  pose proof (dict_of_items_holds_last_diff _ _ _ _ _ _ Hvalid) as Hlast.
  pose proof Hvalid as [Hwf1 Hwf2 [Hne Hlen] Hc1 Hc2 [_ Hidx] _ _].
  exists (dict_of_items
            (diff_items t1 t2 columns1 columns2 (df_index t1) (df_index t2))),
         (sums_diff float_sum t1 t2 columns1 columns2).
  split; [|split].
  - rewrite compare_column_values_omitted.
    apply compare_column_values_items. assumption.
  - destruct (compare_column_sums_cases float_sum t1 t2
                (PList columns1) (PList columns2))
      as [[Hna _]|[(_ & [(c & Hc & Habs)|(c & Hc & Habs)] & _)|(_ & _ & _ & Hrun)]].
    + destruct Hna. repeat split; try discriminate; unfold cardinal; simpl;
        [destruct columns1; [congruence | simpl; lia] | exact Hlen].
    + destruct Habs. auto.
    + destruct Habs. auto.
    + exact Hrun.
  - intros i a b vs1 vs2 Hi1 Hi2 Hlate Hvs1 Hvs2.
    destruct (Hlast i a b Hi1 Hi2)
      as (k & a' & b' & l & Hik & Hk1 & Hk2 & Hlab & _ & Hget & Hdiff).
    assert (k = i) as ->.
    { destruct (decide (k = i)) as [|Hne']; [assumption|].
      destruct (Hlate k ltac:(lia)). unfold label_at.
      rewrite Hk1, Hk2. simpl. congruence. }
    assert (a' = a) as -> by congruence.
    assert (b' = b) as -> by congruence.
    exists l, (map wrap64 (zip_with Z.sub vs1 vs2)).
    split; [exact Hget|]. split.
    + by apply (is_diff_index_ints t1 t2 a b).
    + apply sums_diff_lookup. exists a, b.
      split; [exact Hi1|]. split; [exact Hi2|]. f_equal.
      unfold column_sum. rewrite Hvs1, Hvs2. cbn [default from_option id].
      rewrite !series_sum_arithmetic. cbn [scalar_sub]. f_equal.
      rewrite wrap64_sub, wrap64_arithmetic_sum, arithmetic_sum_sub;
        [reflexivity|].
      pose proof (column_length _ _ _ Hwf1 Hvs1) as Hl1.
      pose proof (column_length _ _ _ Hwf2 Hvs2) as Hl2.
      cbn [col_length] in Hl1, Hl2. congruence.
Qed.

Lemma compare_column_values_sums_witness :
  exists d out l zs,
    compare_column_values scenario_table1 scenario_table2
      (PList ["COL1"; "COL3"]%string) (PList ["col1"; "col2"]%string)
      PNone PNone = Ok d /\
    compare_column_sums sequential_sum scenario_table1 scenario_table2
      (PList ["COL1"; "COL3"]%string) (PList ["col1"; "col2"]%string) = Ok out /\
    dict_get "COL1 [vs] col1"%string d = Some l /\
    map snd l = map I64 zs /\
    out !! 0%nat = Some ("COL1 [vs] col1"%string, I64 (wrap64 (arithmetic_sum zs))).
Proof.
  destruct (compare_column_values_sums sequential_sum
              scenario_table1 scenario_table2
              ["COL1"; "COL3"]%string ["col1"; "col2"]%string)
    as (d & out & Hd & Hout & Hat).
  - concrete_valid.
  - destruct (Hat 0%nat "COL1"%string "col1"%string [1; 4] [1; 2]
                eq_refl eq_refl)
      as (l & zs & Hl & Hzs & Hx).
    + intros [|[|k]] Hk; [lia| |]; vm_compute; discriminate.
    + reflexivity.
    + reflexivity.
    + exists d, out, l, zs. auto.
Defined.

(** ** The outcomes of [compare_column_names] *)

Lemma compare_column_names_run (T : DataFrame) (S : pyobj string) :
  S <> PNone ->
  compare_column_names T S =
  Ok (list_to_set (requested S) ∩ list_to_set (df_columns T),
      list_to_set (df_columns T)
        ∖ (list_to_set (requested S) ∩ list_to_set (df_columns T))).
Proof.
  intros HS. unfold compare_column_names. rewrite to_set_requested.
  - reflexivity.
  - destruct S; [congruence | reflexivity | reflexivity].
Qed.

(** X14. The result of [compare_column_names] depends only on which
    names are standard and which names are columns: a list and a set of
    the same names, in any order and with any repetitions, and tables
    with the same column names, in any order and with any rows, give the
    same two sets. *)
Theorem compare_column_names_same_names (T T' : DataFrame) (S S' : pyobj string) :
  S <> PNone -> S' <> PNone ->
  (forall c, c ∈ requested S <-> c ∈ requested S') ->
  (forall c, c ∈ df_columns T <-> c ∈ df_columns T') ->
  compare_column_names T S = compare_column_names T' S'.
Proof.
  intros HS HS' Hstd Hcols.
  rewrite !compare_column_names_run by assumption.
  assert (list_to_set (requested S) = (list_to_set (requested S') : gset string))
    as -> by (apply set_eq; intros c; rewrite !elem_of_list_to_set; apply Hstd).
  assert (list_to_set (df_columns T) = (list_to_set (df_columns T') : gset string))
    as -> by (apply set_eq; intros c; rewrite !elem_of_list_to_set; apply Hcols).
  reflexivity.
Qed.

Lemma compare_column_names_same_names_witness :
  compare_column_names doc_table (PList ["COL3"; "COL1"; "COL3"]%string)
  = compare_column_names
      {| df_index := []; df_data := [("COL3", IntCol []); ("col2", FloatCol []);
                       ("COL1", IntCol [])] |}
      (PSet {["COL1"; "COL3"]}%string).
Proof.
  apply compare_column_names_same_names; [discriminate | discriminate | |].
  - intros c. cbn [requested]. rewrite elem_of_elements.
    rewrite !elem_of_cons, elem_of_nil, elem_of_union, !elem_of_singleton. tauto.
  - intros c. unfold doc_table, df_columns. cbn [df_data map fst].
    rewrite !elem_of_cons, !elem_of_nil. tauto.
Defined.

(** X15. [compare_column_names] raises only for standard names that are
    [None], and then [TypeError]. Otherwise no column is reported as a
    mismatch exactly when every column is a standard name, nothing
    matches exactly when no column is a standard name, a standard name
    that is not a column is in neither set, and the two sets together
    count every column name once. *)
Theorem compare_column_names_outcomes (T : DataFrame) (S : pyobj string) :
  (forall e, compare_column_names T S = Raise e <-> S = PNone /\ e = TypeError) /\
  (forall matches mismatches,
     compare_column_names T S = Ok (matches, mismatches) ->
     (mismatches = ∅ <-> forall c, c ∈ df_columns T -> c ∈ requested S) /\
     (matches = ∅ <-> forall c, c ∈ df_columns T -> c ∉ requested S) /\
     (forall c, c ∈ requested S -> c ∉ df_columns T ->
        (c ∉ matches) /\ (c ∉ mismatches)) /\
     (NoDup (df_columns T) ->
        (size matches + size mismatches)%nat = length (df_columns T))).
Proof.
  assert (S = PNone \/ S <> PNone) as [->|HS]
    by (destruct S; [left; reflexivity | right; discriminate..]).
  - split; [|discriminate].
    intros e. cbn. split; [intros [= <-]; auto | intros [_ ->]; reflexivity].
  - rewrite (compare_column_names_run T S HS).
    split; [intros e; split; [discriminate | tauto]|].
    intros matches mismatches [= <- <-].
    set (std := list_to_set (requested S) : gset string).
    set (cols := list_to_set (df_columns T) : gset string).
    assert (forall c, c ∈ std <-> c ∈ requested S) as Hstd
      by (intros c; apply elem_of_list_to_set).
    assert (forall c, c ∈ cols <-> c ∈ df_columns T) as Hcols
      by (intros c; apply elem_of_list_to_set).
    split; [|split; [|split]].
    + split.
      * intros Hempty c Hc. destruct (decide (c ∈ std)) as [Hin|Hin].
        -- by apply Hstd.
        -- assert (c ∈ cols ∖ (std ∩ cols)) as Hd.
           { rewrite elem_of_difference, elem_of_intersection, Hcols. tauto. }
           rewrite Hempty in Hd. by apply elem_of_empty in Hd.
      * intros Hall. apply set_eq. intros c.
        rewrite elem_of_difference, elem_of_intersection, Hstd, Hcols,
          elem_of_empty.
        specialize (Hall c). tauto.
    + split.
      * intros Hempty c Hc Hin.
        assert (c ∈ std ∩ cols) as Hd
          by (rewrite elem_of_intersection, Hstd, Hcols; tauto).
        rewrite Hempty in Hd. by apply elem_of_empty in Hd.
      * intros Hnone. apply set_eq. intros c.
        rewrite elem_of_intersection, Hstd, Hcols, elem_of_empty.
        specialize (Hnone c). tauto.
    + intros c _ Habs.
      rewrite elem_of_difference, elem_of_intersection, Hcols. tauto.
    + intros Hnd. rewrite <- size_union.
      * assert (std ∩ cols ∪ cols ∖ (std ∩ cols) = cols) as ->.
        { apply set_eq. intros c.
          rewrite elem_of_union, elem_of_difference, elem_of_intersection.
          destruct (decide (c ∈ std)); tauto. }
        unfold cols. rewrite size_list_to_set by exact Hnd. reflexivity.
      * intros c. rewrite elem_of_difference. tauto.
Qed.

Lemma compare_column_names_outcomes_witness :
  exists matches mismatches : gset string,
    compare_column_names doc_table (PList ["COL1"; "COL2"; "COL3"]%string)
      = Ok (matches, mismatches) /\
    mismatches <> ∅ /\ ("COL2"%string ∉ mismatches) /\
    (size matches + size mismatches)%nat = 3%nat.
Proof.
  eexists _, _. split; [reflexivity|].
  destruct (proj2 (compare_column_names_outcomes doc_table
                     (PList ["COL1"; "COL2"; "COL3"]%string)) _ _ eq_refl)
    as (Hmm & _ & Habs & Hsize).
  split; [|split].
  - intros Hempty. pose proof (proj1 Hmm Hempty "col2"%string) as Hcol.
    clear Hempty. rename Hcol into Hempty. cbn in Hempty.
    rewrite !elem_of_cons, !elem_of_nil in Hempty.
    destruct Hempty as [?|[?|[?|[]]]]; [auto | discriminate..].
  - apply (Habs "COL2"%string).
    + cbn. rewrite !elem_of_cons. auto.
    + cbn. rewrite !elem_of_cons, elem_of_nil.
      intros [?|[?|[?|[]]]]; discriminate.
  - apply Hsize. cbn. by_decide.
Defined.

(** ** The exceptions of the geometry checks *)

Lemma binary_round_aux_sign sx mx ex lx :
  match binary_round_aux prec emax sx mx ex lx with
  | S754_finite s _ _ | S754_infinity s | S754_zero s => s = sx
  | S754_nan => True
  end.
Proof.
  unfold binary_round_aux.
  destruct (shr_fexp prec emax mx ex lx) as [mrs' e'].
  destruct (shr_fexp prec emax _ e' loc_Exact) as [mrs'' e''].
  destruct (shr_m mrs''); [reflexivity | | exact I].
  destruct (e'' <=? emax - prec)%Z; reflexivity.
Qed.

Lemma float_of_int_sign n f :
  0 <= n -> float_of_int n = Ok f ->
  match f with
  | S754_finite s _ _ | S754_zero s => s = false
  | S754_infinity _ => False
  | S754_nan => True
  end.
Proof.
  intros Hn. unfold float_of_int, binary_normalize.
  destruct n as [|p|p]; [intros [= <-]; reflexivity | | lia].
  unfold binary_round.
  destruct (shl_align _ _ _) as [mz ez].
  pose proof (binary_round_aux_sign false (Z.pos mz) ez loc_Exact) as Hs.
  destruct (binary_round_aux prec emax false (Z.pos mz) ez loc_Exact);
    intros [= <-]; exact Hs.
Qed.

Lemma int_gt_float_0 f :
  match f with
  | S754_finite s _ _ | S754_infinity s => s = false
  | _ => True
  end ->
  int_gt_float 0 f = false.
Proof.
  destruct f as [s|s| |s m e]; cbn [int_gt_float]; try reflexivity.
  - intros ->. reflexivity.
  - intros ->. destruct (0 <=? e)%Z eqn:He.
    + apply Z.ltb_ge. apply Z.leb_le in He.
      pose proof (Z.pow_pos_nonneg 2 e ltac:(lia) He). nia.
    + reflexivity.
Qed.

Lemma SFmul_sign fn f :
  match fn with
  | S754_finite s _ _ | S754_zero s => s = false
  | S754_infinity _ => False
  | S754_nan => True
  end ->
  ~ negative (PFloat f) ->
  match SFmul prec emax fn f with
  | S754_finite s _ _ | S754_infinity s => s = false
  | _ => True
  end.
Proof.
  destruct fn as [s| | |s m e]; [|tauto|intros _; exact (fun _ => I)|];
    intros ->; destruct f as [s'|s'| |s' m' e']; cbn [SFmul negative xorb];
    try exact (fun _ => I); intros Hs.
  - destruct s'; [tauto | reflexivity].
  - assert (s' = false) as -> by (destruct s'; tauto).
    pose proof (binary_round_aux_sign false (Z.pos (m * m')) (e + e') loc_Exact)
      as Hr.
    cbn [xorb].
    destruct (binary_round_aux prec emax false (Z.pos (m * m')) (e + e') loc_Exact);
      auto.
Qed.

Section GeometryRun.
Variable gdf : GeoDataFrame.
Variable run : option number -> res bool.
Variable p : geometry -> bool.
Hypothesis run_eq : forall g t, gdf_geometry gdf = Some g ->
  run (Some t) = bound ← int_mul (Z.of_nat (length g)) t;
                 Ok (int_gt (Z.of_nat (count_True (map p g))) bound).
Hypothesis run_None : forall g, gdf_geometry gdf = Some g ->
  run None = Raise TypeError.
Hypothesis run_absent : forall t, gdf_geometry gdf = None -> run t = Raise KeyError.

Lemma check_exceptions t e :
  run t = Raise e ->
  (e = KeyError /\ gdf_geometry gdf = None) \/
  (e = TypeError /\ gdf_geometry gdf <> None /\ t = None) \/
  (e = OverflowError /\
   exists f g, t = Some (PFloat f) /\ gdf_geometry gdf = Some g /\
               2 ^ 53 <= Z.of_nat (length g)).
Proof.
  destruct (gdf_geometry gdf) as [g|] eqn:Hg.
  - destruct t as [[z|f]|].
    + rewrite (run_eq g _ eq_refl). discriminate.
    + rewrite (run_eq g _ eq_refl). cbn [int_mul mbind res_bind].
      destruct (float_of_int (Z.of_nat (length g))) as [fn|e'] eqn:Hfn;
        cbn [mbind res_bind]; [discriminate|].
      intros [= <-]. right. right.
      assert (e' = OverflowError) as ->.
      { unfold float_of_int in Hfn.
        destruct (binary_normalize _ _ _ _ _); congruence. }
      split; [reflexivity|]. exists f, g.
      split; [reflexivity|]. split; [reflexivity|].
      destruct (Z_lt_le_dec (Z.of_nat (length g)) (2 ^ 53)) as [Hlt|Hge];
        [|exact Hge].
      destruct (float_of_int_small (Z.of_nat (length g)) ltac:(lia))
        as [[_ Hz]|(m & e & Hm & _)]; congruence.
    + rewrite (run_None g eq_refl). intros [= <-]. right. left.
      split; [reflexivity|]. split; [discriminate | reflexivity].
  - rewrite (run_absent t eq_refl). intros [= <-]. auto.
Qed.

Lemma check_none_found g t :
  gdf_geometry gdf = Some g -> ~ negative t -> count_rows p g = 0%nat ->
  run (Some t) <> Ok true.
Proof.
  intros Hg Hneg Hcount. rewrite (run_eq g t Hg), count_True_map, Hcount.
  destruct t as [z|f]; cbn [int_mul mbind res_bind].
  - cbn [negative] in Hneg. cbn [int_gt]. intros [= Hlt].
    apply Z.ltb_lt in Hlt. nia.
  - destruct (float_of_int (Z.of_nat (length g))) as [fn|e'] eqn:Hfn;
      cbn [mbind res_bind]; [|discriminate].
    cbn [int_gt]. rewrite int_gt_float_0; [discriminate|].
    apply SFmul_sign; [|exact Hneg].
    eapply float_of_int_sign; [|exact Hfn]. lia.
Qed.
End GeometryRun.

Lemma has_missing_geometries_absent gdf t :
  gdf_geometry gdf = None -> has_missing_geometries gdf t = Raise KeyError.
Proof.
  intros Hg. unfold has_missing_geometries, gdf_getitem_geometry.
  rewrite Hg. reflexivity.
Qed.

Lemma has_empty_geometries_absent gdf t :
  gdf_geometry gdf = None -> has_empty_geometries gdf t = Raise KeyError.
Proof.
  intros Hg. unfold has_empty_geometries, gdf_getitem_geometry.
  rewrite Hg. reflexivity.
Qed.

Lemma has_missing_geometries_None gdf g :
  gdf_geometry gdf = Some g -> has_missing_geometries gdf None = Raise TypeError.
Proof.
  intros Hg. unfold has_missing_geometries, gdf_getitem_geometry.
  rewrite Hg. reflexivity.
Qed.

Lemma has_empty_geometries_None gdf g :
  gdf_geometry gdf = Some g -> has_empty_geometries gdf None = Raise TypeError.
Proof.
  intros Hg. unfold has_empty_geometries, gdf_getitem_geometry.
  rewrite Hg. reflexivity.
Qed.

(** X16. The geometry checks raise [KeyError] exactly when the table
    has no geometry column, and [TypeError] exactly when it has one and
    the threshold is [None]. The only other exception is
    [OverflowError], from the conversion of the row count to a float:
    it needs a float threshold and at least [2^53] rows. *)
Theorem geometry_checks_exceptions (gdf : GeoDataFrame)
    (threshold : option number) :
  (has_missing_geometries gdf threshold = Raise KeyError <->
   gdf_geometry gdf = None) /\
  (has_empty_geometries gdf threshold = Raise KeyError <->
   gdf_geometry gdf = None) /\
  (has_missing_geometries gdf threshold = Raise TypeError <->
   gdf_geometry gdf <> None /\ threshold = None) /\
  (has_empty_geometries gdf threshold = Raise TypeError <->
   gdf_geometry gdf <> None /\ threshold = None) /\
  (forall e,
     has_missing_geometries gdf threshold = Raise e \/
     has_empty_geometries gdf threshold = Raise e ->
     e = KeyError \/ e = TypeError \/
     (e = OverflowError /\
      exists f g, threshold = Some (PFloat f) /\ gdf_geometry gdf = Some g /\
                  2 ^ 53 <= Z.of_nat (length g))).
Proof.
  pose proof (check_exceptions gdf (has_missing_geometries gdf) isna
                (fun g t Hg => has_missing_geometries_eq gdf g t Hg)
                (has_missing_geometries_None gdf)
                (has_missing_geometries_absent gdf)) as Hm.
  pose proof (check_exceptions gdf (has_empty_geometries gdf) is_empty
                (fun g t Hg => has_empty_geometries_eq gdf g t Hg)
                (has_empty_geometries_None gdf)
                (has_empty_geometries_absent gdf)) as He.
  split; [|split; [|split; [|split]]].
  - split; [|apply has_missing_geometries_absent].
    intros Hrun.
    destruct (Hm _ _ Hrun) as [[_ ?]|[[? _]|[? _]]]; [auto | discriminate..].
  - split; [|apply has_empty_geometries_absent].
    intros Hrun.
    destruct (He _ _ Hrun) as [[_ ?]|[[? _]|[? _]]]; [auto | discriminate..].
  - split.
    + intros Hrun.
      destruct (Hm _ _ Hrun) as [[? _]|[[_ ?]|[? _]]]; [discriminate | auto | discriminate].
    + intros [Hg ->]. destruct (gdf_geometry gdf) as [g|] eqn:Hgeo; [|congruence].
      by apply (has_missing_geometries_None gdf g).
  - split.
    + intros Hrun.
      destruct (He _ _ Hrun) as [[? _]|[[_ ?]|[? _]]]; [discriminate | auto | discriminate].
    + intros [Hg ->]. destruct (gdf_geometry gdf) as [g|] eqn:Hgeo; [|congruence].
      by apply (has_empty_geometries_None gdf g).
  - intros e [Hrun|Hrun]; [apply Hm in Hrun | apply He in Hrun];
      destruct Hrun as [[-> _]|[[-> _]|?]]; auto.
Qed.

(** X17. When no row has a missing geometry, [has_missing_geometries]
    does not answer true for any threshold that is not negative, a
    negative zero and a NaN included; likewise [has_empty_geometries]
    when no row has an empty geometry. *)
Theorem geometry_checks_none_found (gdf : GeoDataFrame) (g : list geometry)
    (threshold : number) :
  gdf_geometry gdf = Some g ->
  ~ negative threshold ->
  (count_rows isna g = 0%nat ->
   has_missing_geometries gdf (Some threshold) <> Ok true) /\
  (count_rows is_empty g = 0%nat ->
   has_empty_geometries gdf (Some threshold) <> Ok true).
Proof.
  intros Hg Hneg. split; intros Hcount.
  - apply (check_none_found gdf (has_missing_geometries gdf) isna
             (fun g t Hg => has_missing_geometries_eq gdf g t Hg) g);
      assumption.
  - apply (check_none_found gdf (has_empty_geometries gdf) is_empty
             (fun g t Hg => has_empty_geometries_eq gdf g t Hg) g);
      assumption.
Qed.

Lemma geometry_checks_none_found_witness :
  has_empty_geometries doc_gdf (Some (PFloat S754_nan)) <> Ok true /\
  has_empty_geometries doc_gdf (Some (PFloat (S754_zero true))) <> Ok true.
Proof.
  split.
  - apply (geometry_checks_none_found doc_gdf _ (PFloat S754_nan) eq_refl);
      [simpl; tauto | reflexivity].
  - apply (geometry_checks_none_found doc_gdf _ (PFloat (S754_zero true)) eq_refl);
      [simpl; tauto | reflexivity].
Defined.
